(** * SnapStream capture and stitching: a shallow embedding

    The development follows the TypeScript sources:
    - [src/types.ts]: the frame record and the enumerations;
    - [src/App.tsx]: the frame collection held by the shell and its two
      editing operations, [handleDeleteFrame] and [handleReorderFrame];
    - [src/components/StitchEditor.tsx]: the effect that stitches the
      collection on a canvas;
    - [src/components/CaptureStage.tsx]: the capture session;
    - [src/services/geminiService.ts]: the reading of the gateway response.

    Numbers.  Frame dimensions are read from [canvas.width] and
    [canvas.height], which are integers, so they are modelled in [Z]; the
    horizontal offset [(maxWidth - frame.width) / 2] is a JavaScript division
    and is kept exact in [Q].

    Images.  Every data URL handled by the program is the PNG encoding of a
    canvas ([canvas.toDataURL('image/png')]).  PNG is lossless and the
    encoder is a function of the pixels, so a data URL is identified with the
    bitmap it encodes: two data URLs are byte-identical exactly when the
    bitmaps are equal.  Loading such a URL into an [Image] gives the bitmap
    back, unless the canvas had no pixels (see [decodes]). *)

From Stdlib Require Import ZArith QArith Qround String Ascii List Lia.
From stdpp Require Import base list strings numbers.

Open Scope Z_scope.

(** ** Bitmaps and the 2D canvas *)

(** All images of the program are opaque (a video frame painted over a whole
    canvas, or frames painted over a black fill); [Transparent] is the
    content of a canvas that has just been reset. *)
Inductive Color :=
| Transparent
| RGB (r g b : Z).

Definition black : Color := RGB 0 0 0.

Record Bitmap := {
  bwidth : Z;
  bheight : Z;
  bpixel : Z → Z → Color
}.

(** The calls made on a 2D context, in the order they are made. *)
Inductive DrawOp :=
| FillRect (style : Color) (x y w h : Z)
| DrawImage (img : Bitmap) (dx : Q) (dy : Z).

Record Canvas := {
  cwidth : Z;
  cheight : Z;
  ops : list DrawOp
}.

(** A canvas element as [document.createElement('canvas')] returns it. *)
Definition createCanvas : Canvas :=
  {| cwidth := 300; cheight := 150; ops := [] |}.

(** [canvas.width = w] and [canvas.height = h]: assigning a dimension resets
    the bitmap. *)
Definition set_width (w : Z) (c : Canvas) : Canvas :=
  {| cwidth := w; cheight := cheight c; ops := [] |}.

Definition set_height (h : Z) (c : Canvas) : Canvas :=
  {| cwidth := cwidth c; cheight := h; ops := [] |}.

Definition fillRect (style : Color) (x y w h : Z) (c : Canvas) : Canvas :=
  {| cwidth := cwidth c; cheight := cheight c;
     ops := ops c ++ [FillRect style x y w h] |}.

Definition drawImage (img : Bitmap) (dx : Q) (dy : Z) (c : Canvas) : Canvas :=
  {| cwidth := cwidth c; cheight := cheight c;
     ops := ops c ++ [DrawImage img dx dy] |}.

(** Whether a call paints the pixel [(px, py)], and the colour it leaves
    there.  At a whole offset [drawImage] copies the image, and this is
    what the two functions describe.  At an offset that is not integral the
    browser resamples the image and blends its border; the functions then
    take the source pixel to the left, which is not what the browser
    shows, and no pixel is stated at such an offset. *)
Definition covers (op : DrawOp) (px py : Z) : bool :=
  match op with
  | FillRect _ x y w h =>
      (x <=? px) && (px <? x + w) && (y <=? py) && (py <? y + h)
  | DrawImage img dx dy =>
      Qle_bool dx (inject_Z px)
      && negb (Qle_bool (dx + inject_Z (bwidth img)) (inject_Z px))
      && (dy <=? py) && (py <? dy + bheight img)
  end.

Definition colour_of (op : DrawOp) (px py : Z) : Color :=
  match op with
  | FillRect style _ _ _ _ => style
  | DrawImage img dx dy => bpixel img (Qfloor (inject_Z px - dx)) (py - dy)
  end.

(** The colour at [(px, py)] after one call, over the colour [under] that
    was there. *)
Definition paint (op : DrawOp) (px py : Z) (under : Color) : Color :=
  if covers op px py then colour_of op px py else under.

Definition pixel_at (c : Canvas) (px py : Z) : Color :=
  foldl (λ under op, paint op px py under) Transparent (ops c).

(** [canvas.toDataURL('image/png')]. *)
Definition toDataURL (c : Canvas) : Bitmap :=
  {| bwidth := cwidth c;
     bheight := cheight c;
     bpixel := λ px py,
       if (0 <=? px) && (px <? cwidth c) && (0 <=? py) && (py <? cheight c)
       then pixel_at c px py else Transparent |}.

(** Whether a data URL loads into an [Image].  The URL of a canvas with no
    pixels is the string [data:,], which is no image: its load ends in
    [onerror], and [onload] is never called. *)
Definition decodes (url : Bitmap) : bool :=
  (0 <? bwidth url) && (0 <? bheight url).

(** [Math.max(...xs)]; [None] stands for the [-Infinity] of an empty
    argument list. *)
Definition Math_max (xs : list Z) : option Z :=
  foldl (λ acc x, Some (match acc with None => x | Some m => Z.max m x end))
        None xs.

(** ** JSON values and [JSON.parse] *)

#[warnings="-register-all"]
Inductive JSON :=
| JNull
| JBool (b : bool)
| JNumber (n : Q)
| JString (s : string)
| JArray (items : list JSON)
| JObject (members : list (string * JSON)).

Module JSONText.

Definition code (c : ascii) : N := N_of_ascii c.

Definition is_ws (c : ascii) : bool :=
  let n := code c in
  ((n =? 32) || (n =? 9) || (n =? 10) || (n =? 13))%N.

Fixpoint skip_ws (s : string) : string :=
  match s with
  | String c r => if is_ws c then skip_ws r else s
  | EmptyString => s
  end.

Definition is_digit (c : ascii) : bool :=
  ((48 <=? code c) && (code c <=? 57))%N.

Definition digit_val (c : ascii) : Z := Z.of_N (code c) - 48.

(** The longest run of decimal digits at the head of [s]: its value after
    [acc], how many digits it has, and what follows. *)
Fixpoint take_digits (s : string) (acc : Z) (count : nat)
    : Z * nat * string :=
  match s with
  | String c r =>
      if is_digit c then take_digits r (10 * acc + digit_val c) (S count)
      else (acc, count, s)
  | EmptyString => (acc, count, s)
  end.

Definition hex_val (c : ascii) : option Z :=
  let n := code c in
  if is_digit c then Some (Z.of_N n - 48)
  else if ((97 <=? n) && (n <=? 102))%N then Some (Z.of_N n - 87)
  else if ((65 <=? n) && (n <=? 70))%N then Some (Z.of_N n - 55)
  else None.

Definition byte (z : Z) : ascii := ascii_of_N (Z.to_N z).

(** The UTF-8 bytes of a code unit of the basic plane. *)
Definition utf8 (u : Z) : string :=
  if u <? 128 then String (byte u) EmptyString
  else if u <? 2048 then
    String (byte (192 + u / 64)) (String (byte (128 + u mod 64)) EmptyString)
  else
    String (byte (224 + u / 4096))
      (String (byte (128 + (u / 64) mod 64))
         (String (byte (128 + u mod 64)) EmptyString)).

(** The character a one-letter escape stands for. *)
Definition escape (e : ascii) : option ascii :=
  let n := code e in
  if (n =? 34)%N then Some e                         (* quote *)
  else if (n =? 92)%N then Some e                    (* backslash *)
  else if (n =? 47)%N then Some e                    (* slash *)
  else if (n =? 98)%N then Some (ascii_of_N 8)       (* b *)
  else if (n =? 102)%N then Some (ascii_of_N 12)     (* f *)
  else if (n =? 110)%N then Some (ascii_of_N 10)     (* n *)
  else if (n =? 114)%N then Some (ascii_of_N 13)     (* r *)
  else if (n =? 116)%N then Some (ascii_of_N 9)      (* t *)
  else None.

(** A string literal after its opening quote: the string and what follows
    the closing quote. *)
Fixpoint string_body (s : string) : option (string * string) :=
  match s with
  | EmptyString => None
  | String c r =>
      if (code c =? 34)%N then Some (EmptyString, r)
      else if (code c =? 92)%N then
        match r with
        | EmptyString => None
        | String e r1 =>
            match escape e with
            | Some ch =>
                '(str, rest) ← string_body r1; Some (String ch str, rest)
            | None =>
                if (code e =? 117)%N then
                  match r1 with
                  | String h1 (String h2 (String h3 (String h4 r2))) =>
                      a ← hex_val h1; b ← hex_val h2;
                      c' ← hex_val h3; d ← hex_val h4;
                      '(str, rest) ← string_body r2;
                      Some (utf8 (((a * 16 + b) * 16 + c') * 16 + d) +:+ str,
                            rest)
                  | _ => None
                  end
                else None
            end
        end
      else if (code c <? 32)%N then None
      else '(str, rest) ← string_body r; Some (String c str, rest)
  end.

(** A number at the head of [s]: sign, integer part without a leading
    zero, optional fraction, optional exponent.  The value is kept exact,
    where [JSON.parse] rounds it to a double; the two differ on literals
    that no double holds, such as [1e-400], which the theorems do not
    use. *)
Definition number (s : string) : option (Q * string) :=
  let '(negative, s1) :=
    match s with
    | String c r => if (code c =? 45)%N then (true, r) else (false, s)
    | EmptyString => (false, s)
    end in
  '(ip, s2) ←
    match s1 with
    | String c r =>
        if (code c =? 48)%N then Some (0, r)
        else if is_digit c then
          let '(v, _, r') := take_digits s1 0 0 in Some (v, r')
        else None
    | EmptyString => None
    end;
  '(fp, fn, s3) ←
    match s2 with
    | String c r =>
        if (code c =? 46)%N then
          match take_digits r 0 0 with
          | (_, O, _) => None
          | (v, n, r') => Some (v, n, r')
          end
        else Some (0, O, s2)
    | EmptyString => Some (0, O, s2)
    end;
  '(ex, s4) ←
    match s3 with
    | String c r =>
        if ((code c =? 101) || (code c =? 69))%N then
          let '(eneg, r1) :=
            match r with
            | String g r' =>
                if (code g =? 45)%N then (true, r')
                else if (code g =? 43)%N then (false, r')
                else (false, r)
            | EmptyString => (false, r)
            end in
          match take_digits r1 0 0 with
          | (_, O, _) => None
          | (v, _, r') => Some (if eneg then - v else v, r')
          end
        else Some (0, s3)
    | EmptyString => Some (0, s3)
    end;
  let mantissa := (inject_Z ip + inject_Z fp / inject_Z (10 ^ Z.of_nat fn))%Q in
  let scaled :=
    (if 0 <=? ex then mantissa * inject_Z (10 ^ ex)
     else mantissa / inject_Z (10 ^ (- ex)))%Q in
  Some (Qred (if negative then - scaled else scaled)%Q, s4).

(** [s] without the prefix [p], when it starts with it. *)
Fixpoint strip (p s : string) : option string :=
  match p, s with
  | EmptyString, _ => Some s
  | String a p', String b s' => if Ascii.eqb a b then strip p' s' else None
  | String _ _, EmptyString => None
  end.

(** A value at the head of [s], blanks before it skipped.  [elements] and
    [members] read what follows the opening bracket or brace when the
    array or object is not empty. *)
Fixpoint value (fuel : nat) (s : string) {struct fuel}
    : option (JSON * string) :=
  match fuel with
  | O => None
  | S fuel' =>
      match skip_ws s with
      | EmptyString => None
      | String c r =>
          let n := code c in
          if (n =? 123)%N then
            match skip_ws r with
            | String c1 r1 =>
                if (code c1 =? 125)%N then Some (JObject [], r1)
                else '(ms, rest) ← members fuel' r; Some (JObject ms, rest)
            | EmptyString => None
            end
          else if (n =? 91)%N then
            match skip_ws r with
            | String c1 r1 =>
                if (code c1 =? 93)%N then Some (JArray [], r1)
                else '(vs, rest) ← elements fuel' r; Some (JArray vs, rest)
            | EmptyString => None
            end
          else if (n =? 34)%N then
            '(str, rest) ← string_body r; Some (JString str, rest)
          else if (n =? 116)%N then
            rest ← strip "true" (String c r); Some (JBool true, rest)
          else if (n =? 102)%N then
            rest ← strip "false" (String c r); Some (JBool false, rest)
          else if (n =? 110)%N then
            rest ← strip "null" (String c r); Some (JNull, rest)
          else
            '(q, rest) ← number (String c r); Some (JNumber q, rest)
      end
  end
with elements (fuel : nat) (s : string) {struct fuel}
    : option (list JSON * string) :=
  match fuel with
  | O => None
  | S fuel' =>
      '(v, r) ← value fuel' s;
      match skip_ws r with
      | String c r1 =>
          if (code c =? 44)%N then
            '(vs, rest) ← elements fuel' r1; Some (v :: vs, rest)
          else if (code c =? 93)%N then Some ([v], r1)
          else None
      | EmptyString => None
      end
  end
with members (fuel : nat) (s : string) {struct fuel}
    : option (list (string * JSON) * string) :=
  match fuel with
  | O => None
  | S fuel' =>
      match skip_ws s with
      | String c r =>
          if (code c =? 34)%N then
            '(key, r1) ← string_body r;
            match skip_ws r1 with
            | String c2 r2 =>
                if (code c2 =? 58)%N then
                  '(v, r3) ← value fuel' r2;
                  match skip_ws r3 with
                  | String c4 r4 =>
                      if (code c4 =? 44)%N then
                        '(ms, rest) ← members fuel' r4;
                        Some ((key, v) :: ms, rest)
                      else if (code c4 =? 125)%N then Some ([(key, v)], r4)
                      else None
                  | EmptyString => None
                  end
                else None
            | EmptyString => None
            end
          else None
      | EmptyString => None
      end
  end.

End JSONText.

(** [JSON.parse(text)]; [None] when it throws a [SyntaxError].  Numbers are
    kept exact. *)
Definition JSON_parse (text : string) : option JSON :=
  '(v, rest) ← JSONText.value (2 * String.length text + 2) text;
  match JSONText.skip_ws rest with
  | EmptyString => Some v
  | String _ _ => None
  end.

(** ** src/types.ts *)

Record CapturedFrame := {
  id : string;
  dataUrl : Bitmap;
  width : Z;
  height : Z;
  timestamp : Z
}.

Inductive CaptureMode := SINGLE | LONG_MANUAL | LONG_TIMER.

Inductive AppState := IDLE | CAPTURING | STITCHING | ANALYZING.

(** The three fields are declared as optional strings; at run time they hold
    whatever the parsed response holds.  [None] is [undefined]; a key that is
    absent and a key bound to [undefined] are not told apart. *)
Record AnalysisResult := {
  text : option JSON;
  summary : option JSON;
  code : option JSON
}.

(** ** src/App.tsx *)

Inductive Direction := up | down.

(** [prev.findIndex(f => ...)]: the first index whose element satisfies the
    predicate, [-1] when there is none. *)
Definition findIndex {A} (P : A → Prop) `{∀ x, Decision (P x)}
    (l : list A) : Z :=
  match list_find P l with
  | Some (i, _) => Z.of_nat i
  | None => -1
  end.

Module App.

Record State := {
  appState : AppState;
  frames : list CapturedFrame;
  analysis : option AnalysisResult;
  isAnalyzing : bool
}.

Definition initial : State :=
  {| appState := IDLE; frames := []; analysis := None;
     isAnalyzing := false |}.

Definition setAppState (a : AppState) (st : State) : State :=
  {| appState := a; frames := frames st; analysis := analysis st;
     isAnalyzing := isAnalyzing st |}.

(** [setFrames(prev => ...)]. *)
Definition setFrames (updater : list CapturedFrame → list CapturedFrame)
    (st : State) : State :=
  {| appState := appState st; frames := updater (frames st);
     analysis := analysis st; isAnalyzing := isAnalyzing st |}.

Definition handleStartCapture (st : State) : State :=
  {| appState := CAPTURING; frames := []; analysis := None;
     isAnalyzing := isAnalyzing st |}.

Definition handleCaptureComplete (capturedFrames : list CapturedFrame)
    (st : State) : State :=
  setAppState STITCHING (setFrames (λ _, capturedFrames) st).

(** The updater [handleDeleteFrame] passes to [setFrames]. *)
Definition handleDeleteFrame (i : string) (prev : list CapturedFrame)
    : list CapturedFrame :=
  filter (λ f, id f ≠ i) prev.

(** The updater [handleReorderFrame] passes to [setFrames].  The swap is
    the destructuring assignment
    [[newFrames[idx], newFrames[swapIdx]] = [newFrames[swapIdx], newFrames[idx]]]:
    both reads happen before both writes, and the guard keeps both indices
    inside the array. *)
Definition handleReorderFrame (i : string) (direction : Direction)
    (prev : list CapturedFrame) : list CapturedFrame :=
  let idx := findIndex (λ f, id f = i) prev in
  if idx =? -1 then prev
  else
    let newFrames := prev in
    let swapIdx :=
      match direction with up => idx - 1 | down => idx + 1 end in
    if (0 <=? swapIdx) && (swapIdx <? Z.of_nat (length newFrames)) then
      match newFrames !! Z.to_nat swapIdx, newFrames !! Z.to_nat idx with
      | Some a, Some b =>
          <[Z.to_nat swapIdx := b]> (<[Z.to_nat idx := a]> newFrames)
      | _, _ => newFrames
      end
    else newFrames.

End App.

(** ** src/components/StitchEditor.tsx: the stitching effect

    The effect is described from the moment React runs it for a value of
    [frames].  The canvas element is mounted then and gives a 2D context,
    so the two early returns on [!canvas] and [!ctx] are not taken.  A run is
    followed on its own: the image loads of an earlier run are taken to have
    completed before it starts. *)

Module StitchEditor.

(** The part of the component the effect works on: the canvas behind
    [canvasRef] and the [stitchedImage] state ([None] is [null]). *)
Record Component := {
  canvas : Canvas;
  stitchedImage : option Bitmap
}.

(** What an effect run leaves in flight when its synchronous part
    returns.  The first loop ([frames.forEach]) has started one image load
    per frame; their [onload] handlers share [currentY].  [drawImages] has
    one load in flight at a time, that of the head of [awaiting], and owns
    [yOffset]. *)
Record Pass := {
  maxWidth : Z;
  currentY : Z;
  loading : list CapturedFrame;
  yOffset : Z;
  awaiting : list CapturedFrame
}.

(** [const totalHeight = frames.reduce((acc, f) => acc + f.height, 0)]. *)
Definition totalHeight (frames : list CapturedFrame) : Z :=
  foldl (λ acc f, acc + height f) 0 frames.

(** [const x = (maxWidth - frame.width) / 2], written in both loops. *)
Definition centre (maxWidth : Z) (frame : CapturedFrame) : Q :=
  Qred (inject_Z (maxWidth - width frame) / 2).

(** The body of the effect up to the first suspension.  An empty
    collection clears [stitchedImage] and returns.  Otherwise the canvas is
    resized (which resets it) and filled with black, the loads of the first
    loop are started and [drawImages] is entered.  The guard leaves
    [Math.max] with at least one argument, so its [-Infinity] does not
    occur. *)
Definition effect (frames : list CapturedFrame) (st : Component)
    : Component * option Pass :=
  match frames with
  | [] => ({| canvas := canvas st; stitchedImage := None |}, None)
  | _ :: _ =>
      match Math_max (width <$> frames) with
      | None => (st, None)
      | Some maxWidth =>
          let canvas1 :=
            set_height (totalHeight frames) (set_width maxWidth (canvas st)) in
          let canvas2 :=
            fillRect black 0 0 (cwidth canvas1) (cheight canvas1) canvas1 in
          ({| canvas := canvas2; stitchedImage := stitchedImage st |},
           Some {| maxWidth := maxWidth;
                   currentY := 0; loading := frames;
                   yOffset := 0; awaiting := frames |})
      end
  end.

(** The [onload] handler of the first loop for [frame]. *)
Definition forEach_onload (frame : CapturedFrame) (s : Component * Pass)
    : Component * Pass :=
  let '(st, p) := s in
  let x := centre (maxWidth p) frame in
  ({| canvas := drawImage (dataUrl frame) x (currentY p) (canvas st);
      stitchedImage := stitchedImage st |},
   {| maxWidth := maxWidth p;
      currentY := currentY p + height frame; loading := loading p;
      yOffset := yOffset p; awaiting := awaiting p |}).

(** One turn of the loop of [drawImages]: the [onload] handler for [frame]
    draws, advances [yOffset] and resolves the awaited promise; when
    [frame] was the last one the function goes on to encode the canvas and
    publish it. *)
Definition drawImages_onload (frame : CapturedFrame)
    (rest : list CapturedFrame) (s : Component * Pass) : Component * Pass :=
  let '(st, p) := s in
  let x := centre (maxWidth p) frame in
  let canvas' := drawImage (dataUrl frame) x (yOffset p) (canvas st) in
  ({| canvas := canvas';
      stitchedImage :=
        match rest with
        | [] => Some (toDataURL canvas')
        | _ :: _ => stitchedImage st
        end |},
   {| maxWidth := maxWidth p;
      currentY := currentY p; loading := loading p;
      yOffset := yOffset p + height frame; awaiting := rest |}).

(** The load events of a pass.  [Onload1 k] is the load of the [k]-th image
    of the first loop that is still loading; the browser may complete
    these in any order.  [Onload2] is the load of the image [drawImages] is
    waiting for. *)
Inductive LoadEvent :=
| Onload1 (k : nat)
| Onload2.

(** One event; [None] when no such load is in flight or when the image
    does not decode, so that its [onload] never runs. *)
Definition step (e : LoadEvent) (s : Component * Pass)
    : option (Component * Pass) :=
  let '(st, p) := s in
  match e with
  | Onload1 k =>
      match loading p !! k with
      | Some frame =>
          if negb (decodes (dataUrl frame)) then None else
          let p' := {| maxWidth := maxWidth p;
                       currentY := currentY p; loading := delete k (loading p);
                       yOffset := yOffset p; awaiting := awaiting p |} in
          Some (forEach_onload frame (st, p'))
      | None => None
      end
  | Onload2 =>
      match awaiting p with
      | frame :: rest =>
          if negb (decodes (dataUrl frame)) then None
          else Some (drawImages_onload frame rest s)
      | [] => None
      end
  end.

Fixpoint run (es : list LoadEvent) (s : Component * Pass)
    : option (Component * Pass) :=
  match es with
  | [] => Some s
  | e :: es' =>
      match step e s with
      | Some s' => run es' s'
      | None => None
      end
  end.

(** A render of [frames] from the component state [st] under the order of
    load events [es]: the component after the last event. *)
Definition render (frames : list CapturedFrame) (es : list LoadEvent)
    (st : Component) : option Component :=
  match effect frames st with
  | (st', None) => match es with [] => Some st' | _ :: _ => None end
  | (st', Some p) => fst <$> run es (st', p)
  end.

(** [drawImages] run on its own, with no other handler in between: the
    loop [for (const frame of frames)] with its local [yOffset], each turn
    awaiting the load of its frame before it draws, then
    [setStitchedImage(canvas.toDataURL('image/png'))].  The promise of a
    frame that does not decode is never resolved: the function stays
    suspended there and publishes nothing ([None]). *)
Fixpoint drawImages_loop (maxWidth : Z) (frames : list CapturedFrame)
    (c : Canvas) (yOffset : Z) : option (Canvas * Z) :=
  match frames with
  | [] => Some (c, yOffset)
  | frame :: rest =>
      if negb (decodes (dataUrl frame)) then None else
      let x := centre maxWidth frame in
      drawImages_loop maxWidth rest
        (drawImage (dataUrl frame) x yOffset c) (yOffset + height frame)
  end.

Definition drawImages (maxWidth : Z) (frames : list CapturedFrame)
    (st : Component) : option Component :=
  match drawImages_loop maxWidth frames (canvas st) 0 with
  | Some (c, _) => Some {| canvas := c; stitchedImage := Some (toDataURL c) |}
  | None => None
  end.

End StitchEditor.

(** ** src/components/CaptureStage.tsx *)

(** The handle [getDisplayMedia] resolves to. *)
Definition MediaStream := nat.

(** The [video] element: the size and the pixels of the frame it shows. *)
Record Video := {
  videoWidth : Z;
  videoHeight : Z;
  currentFrame : Z → Z → Color
}.

(** What one call of [captureFrame] reads from its surroundings: the element
    behind [videoRef] ([None] when it is not mounted), the value
    [Math.random()] returns, and [Date.now()]. *)
Record Env := {
  videoRef : option Video;
  random : Q;
  now : Z
}.

(** What the component does to the outside: stopping the tracks of a stream,
    clearing an interval, and the two callbacks of its props. *)
Inductive Output :=
| TrackStop (s : MediaStream)
| ClearInterval (timer : Z)
| OnCaptureFrames (fs : list CapturedFrame)
| OnCancel.

(** [Number.prototype.toString(36)], applied to the value [Math.random()]
    returns.  The digits are the engine's: it prints the shortest digits
    that read back as the same double, computed in floating point.  The
    component only cuts the text it is given, so the development takes
    the conversion as it comes, as a function of the number. *)
Class Engine := {
  toString36 : Q → string
}.

Module CaptureStage.

(** [const generateId = () => Math.random().toString(36).substr(2, 9)],
    as a function of the value [Math.random()] returns. *)
Definition generateId `{Engine} (random : Q) : string :=
  substring 2 9 (toString36 random).

Record State := {
  stream : option MediaStream;
  mode : CaptureMode;
  frames : list CapturedFrame;
  isRecording : bool;
  timerInterval : option Z
}.

(** The [useState] initial values. *)
Definition initial : State :=
  {| stream := None; mode := SINGLE; frames := []; isRecording := false;
     timerInterval := None |}.

Definition setStream (s : option MediaStream) (st : State) : State :=
  {| stream := s; mode := mode st; frames := frames st;
     isRecording := isRecording st; timerInterval := timerInterval st |}.

Definition setMode (m : CaptureMode) (st : State) : State :=
  {| stream := stream st; mode := m; frames := frames st;
     isRecording := isRecording st; timerInterval := timerInterval st |}.

(** [setFrames(prev => ...)]. *)
Definition setFrames (updater : list CapturedFrame → list CapturedFrame)
    (st : State) : State :=
  {| stream := stream st; mode := mode st; frames := updater (frames st);
     isRecording := isRecording st; timerInterval := timerInterval st |}.

Definition setIsRecording (b : bool) (st : State) : State :=
  {| stream := stream st; mode := mode st; frames := frames st;
     isRecording := b; timerInterval := timerInterval st |}.

Definition setTimerInterval (t : option Z) (st : State) : State :=
  {| stream := stream st; mode := mode st; frames := frames st;
     isRecording := isRecording st; timerInterval := t |}.

(** A handler is a closure of the render that created it: it reads the
    state of that render, [self], wherever the source names a state
    variable.  What it does is a list of state updates, applied to the
    state the component has when they are flushed, and a list of
    outputs. *)
Record Reaction := {
  updates : State → State;
  outputs : list Output
}.

Definition stopStream (self : State) : Reaction :=
  {| updates :=
       match stream self with
       | Some _ => setStream None
       | None => λ st, st
       end;
     outputs :=
       match stream self with
       | Some s => [TrackStop s]
       | None => []
       end ++
       match timerInterval self with
       | Some t => [ClearInterval t]
       | None => []
       end |}.

(** [captureFrame].  The canvas it creates has the size of the video; the
    five-argument [drawImage] paints the video frame over all of it. *)
Definition captureFrame `{Engine} (self : State) (env : Env) : Reaction :=
  match videoRef env, stream self with
  | Some video, Some _ =>
      let canvas :=
        set_height (videoHeight video)
          (set_width (videoWidth video) createCanvas) in
      let shown :=
        {| bwidth := cwidth canvas; bheight := cheight canvas;
           bpixel := currentFrame video |} in
      let drawn := drawImage shown 0 0 canvas in
      let dataUrl := toDataURL drawn in
      let newFrame :=
        {| id := generateId (random env);
           dataUrl := dataUrl;
           width := cwidth drawn;
           height := cheight drawn;
           timestamp := now env |} in
      {| updates := setFrames (λ prev, prev ++ [newFrame]); outputs := [] |}
  | _, _ => {| updates := λ st, st; outputs := [] |}
  end.

Definition handleFinish (self : State) : Reaction :=
  {| updates := updates (stopStream self);
     outputs := outputs (stopStream self) ++ [OnCaptureFrames (frames self)] |}.

(** The click handler of the close button: [stopStream(); onCancel()]. *)
Definition handleClose (self : State) : Reaction :=
  {| updates := updates (stopStream self);
     outputs := outputs (stopStream self) ++ [OnCancel] |}.

(** The timer effect (lines 95 to 106), as it runs after a render in which
    [mode] or [isRecording] has changed; [handle] is what
    [window.setInterval] returns if it is called.  The second component is
    the interval the effect has started, which its cleanup will clear. *)
Definition timerEffect (self : State) (handle : Z) : Reaction * option Z :=
  match mode self, isRecording self with
  | LONG_TIMER, true =>
      ({| updates := setTimerInterval (Some handle); outputs := [] |},
       Some handle)
  | _, _ =>
      ({| updates := λ st, st;
          outputs :=
            match timerInterval self with
            | Some t => [ClearInterval t]
            | None => []
            end |},
       None)
  end.

End CaptureStage.

(** ** The application: [App] with the [CaptureStage] it mounts

    [CaptureStage] is mounted exactly while [appState] is [CAPTURING]; each
    mount is a new instance with the initial state.  The component renders
    again after every event, so the handlers a user can reach are closures
    of the current state.  A callback handed to [setTimeout] keeps the
    render it was created in.  [handles] is the next handle of
    [setInterval] and [setTimeout]; [interval] is the interval the timer
    effect of the mounted stage has started and its cleanup has not yet
    cleared. *)

#[global] Instance CaptureMode_eq_dec : EqDecision CaptureMode.
Proof. solve_decision. Defined.

Record System := {
  app : App.State;
  instances : nat;
  stage : option (nat * CaptureStage.State);
  handles : Z;
  interval : option Z;
  timeouts : list (nat * CaptureStage.State);
  trace : list Output
}.

Inductive Event :=
| StartCapture
| BackToHome
| StreamGranted (s : MediaStream)
| StreamDenied
| SetMode (m : CaptureMode)
| CaptureAndEdit (env : Env)
| SnapFrame (env : Env)
| StartTimer
| PauseTimer
| Tick (env : Env)
| Finish
| Close
| TimeoutFires
| DeleteFrame (i : string)
| ReorderFrame (i : string) (direction : Direction).

Definition boot : System :=
  {| app := App.initial; instances := O; stage := None; handles := 1;
     interval := None; timeouts := []; trace := [] |}.

(** The shell after one output of the stage: the two callbacks are
    [handleCaptureComplete] and [() => setAppState(AppState.IDLE)]. *)
Definition deliver (o : Output) (a : App.State) : App.State :=
  match o with
  | OnCaptureFrames fs => App.handleCaptureComplete fs a
  | OnCancel => App.setAppState IDLE a
  | TrackStop _ | ClearInterval _ => a
  end.

(** A reaction of a handler created by instance [inst]: its updates reach
    the mounted stage when that is still the same instance, its outputs
    reach the shell, and the stage stays mounted only while the shell is
    capturing. *)
Definition react (inst : nat) (r : CaptureStage.Reaction) (sys : System)
    : System :=
  let app' := foldl (λ a o, deliver o a) (app sys) (CaptureStage.outputs r) in
  {| app := app';
     instances := instances sys;
     stage :=
       match App.appState app', stage sys with
       | CAPTURING, Some (i, st) =>
           Some (i, if Nat.eqb i inst then CaptureStage.updates r st else st)
       | _, _ => None
       end;
     handles := handles sys;
     interval := interval sys;
     timeouts := timeouts sys;
     trace := trace sys ++ CaptureStage.outputs r |}.

Definition setApp (a : App.State) (sys : System) : System :=
  {| app := a;
     instances := instances sys;
     stage := match App.appState a with CAPTURING => stage sys | _ => None end;
     handles := handles sys;
     interval := interval sys;
     timeouts := timeouts sys;
     trace := trace sys |}.

Definition is_some {A} (o : option A) : bool :=
  match o with Some _ => true | None => false end.

(** What the handler of an event does; [None] when the control the event
    comes from is not on the page (or is disabled) in the current state. *)
Definition handle `{Engine} (e : Event) (sys : System) : option System :=
  let a := app sys in
  match e with
  | StartCapture =>
      match App.appState a with
      | IDLE | STITCHING =>
          Some {| app := App.handleStartCapture a;
                  instances := S (instances sys);
                  stage := Some (instances sys, CaptureStage.initial);
                  handles := handles sys;
                  interval := interval sys;
                  timeouts := timeouts sys;
                  trace := trace sys |}
      | _ => None
      end
  | BackToHome =>
      match App.appState a with
      | IDLE => None
      | _ => Some (setApp (App.setAppState IDLE a) sys)
      end
  | DeleteFrame i =>
      match App.appState a with
      | STITCHING => Some (setApp (App.setFrames (App.handleDeleteFrame i) a) sys)
      | _ => None
      end
  | ReorderFrame i direction =>
      match App.appState a with
      | STITCHING =>
          Some (setApp (App.setFrames (App.handleReorderFrame i direction) a) sys)
      | _ => None
      end
  | TimeoutFires =>
      match timeouts sys with
      | (inst, self) :: rest =>
          Some (react inst (CaptureStage.handleFinish self)
                  {| app := a; instances := instances sys; stage := stage sys;
                     handles := handles sys; interval := interval sys;
                     timeouts := rest; trace := trace sys |})
      | [] => None
      end
  | _ =>
      match stage sys with
      | None => None
      | Some (inst, self) =>
          let update f :=
            Some (react inst {| CaptureStage.updates := f;
                                CaptureStage.outputs := [] |} sys) in
          let shown := is_some (CaptureStage.stream self) in
          match e, CaptureStage.mode self with
          | StreamGranted s, _ =>
              if shown then None
              else update (CaptureStage.setStream (Some s))
          | StreamDenied, _ =>
              if shown then None
              else Some (react inst {| CaptureStage.updates := λ st, st;
                                       CaptureStage.outputs := [OnCancel] |} sys)
          | SetMode m, _ =>
              if shown then update (CaptureStage.setMode m) else None
          | CaptureAndEdit env, SINGLE =>
              if shown then
                let sys' := react inst (CaptureStage.captureFrame self env) sys in
                Some {| app := app sys'; instances := instances sys';
                        stage := stage sys';
                        handles := handles sys' + 1;
                        interval := interval sys';
                        timeouts := timeouts sys' ++ [(inst, self)];
                        trace := trace sys' |}
              else None
          | SnapFrame env, LONG_MANUAL =>
              if shown then Some (react inst (CaptureStage.captureFrame self env) sys)
              else None
          | StartTimer, LONG_TIMER =>
              if shown && negb (CaptureStage.isRecording self) then
                update (CaptureStage.setIsRecording true)
              else None
          | PauseTimer, LONG_TIMER =>
              if shown && CaptureStage.isRecording self then
                update (CaptureStage.setIsRecording false)
              else None
          | Tick env, LONG_TIMER =>
              if shown && CaptureStage.isRecording self then
                Some (react inst (CaptureStage.captureFrame self env) sys)
              else None
          | Finish, (LONG_MANUAL | LONG_TIMER) =>
              if shown && negb (Nat.eqb (length (CaptureStage.frames self)) 0)
              then Some (react inst (CaptureStage.handleFinish self) sys)
              else None
          | Close, _ =>
              if shown then Some (react inst (CaptureStage.handleClose self) sys)
              else None
          | _, _ => None
          end
      end
  end.

(** The dependencies [[mode, isRecording]] of the timer effect are the same
    in two renders. *)
Definition same_deps (a b : CaptureStage.State) : bool :=
  bool_decide (CaptureStage.mode a = CaptureStage.mode b)
  && Bool.eqb (CaptureStage.isRecording a) (CaptureStage.isRecording b).

(** The effects after the render that follows an event; [before] is the
    stage as it was mounted before the event.  When the stage has been
    unmounted the cleanup of its timer effect runs.  When it has just been
    mounted, or the dependencies have changed, the cleanup of the last run
    is followed by a new run of the effect. *)
Definition commit (before : option (nat * CaptureStage.State)) (sys : System)
    : System :=
  let cleanup :=
    match interval sys with Some t => [ClearInterval t] | None => [] end in
  match stage sys with
  | None =>
      {| app := app sys; instances := instances sys; stage := None;
         handles := handles sys; interval := None; timeouts := timeouts sys;
         trace := trace sys ++ cleanup |}
  | Some (i, st) =>
      let unchanged :=
        match before with
        | Some (j, st0) => Nat.eqb i j && same_deps st0 st
        | None => false
        end in
      if unchanged then sys
      else
        let '(r, started) := CaptureStage.timerEffect st (handles sys) in
        {| app := app sys; instances := instances sys;
           stage := Some (i, CaptureStage.updates r st);
           handles := if is_some started then handles sys + 1 else handles sys;
           interval := started;
           timeouts := timeouts sys;
           trace := trace sys ++ cleanup ++ CaptureStage.outputs r |}
  end.

(** One event: its handler, then the render and its effects. *)
Definition step `{Engine} (e : Event) (sys : System) : option System :=
  commit (stage sys) <$> handle e sys.

Fixpoint run `{Engine} (es : list Event) (sys : System) : option System :=
  match es with
  | [] => Some sys
  | e :: es' =>
      match step e sys with
      | Some sys' => run es' sys'
      | None => None
      end
  end.

(** ** src/services/geminiService.ts

    The service handles the image as the text of its data URL: all it does
    with it is to cut it at the commas. *)

Module geminiService.

(** What [await ai.models.generateContent(...)] comes to: a rejection, or
    a response whose [text] may be [undefined]. *)
Inductive GatewayResponse :=
| Rejected (error : string)
| Resolved (text : option string).

Inductive Outcome :=
| Throws (error : string)
| Returns (result : AnalysisResult).

(** [s.split(',')[1]]: the piece between the first comma and the second,
    [None] when there is no comma. *)
Fixpoint until_comma (s : string) : string * option string :=
  match s with
  | EmptyString => (EmptyString, None)
  | String c r =>
      if (N_of_ascii c =? 44)%N then (EmptyString, Some r)
      else let '(piece, tail) := until_comma r in (String c piece, tail)
  end.

Definition split_comma_1 (s : string) : option string :=
  match until_comma s with
  | (_, Some r) => Some (fst (until_comma r))
  | (_, None) => None
  end.

(** The truth value of a JavaScript value. *)
Definition truthy (v : option JSON) : bool :=
  match v with
  | None => false
  | Some JNull => false
  | Some (JBool b) => b
  | Some (JNumber n) => negb (Qeq_bool n 0)
  | Some (JString s) => negb (String.eqb s EmptyString)
  | Some (JArray _) => true
  | Some (JObject _) => true
  end.

(** The last binding of [key]: [JSON.parse] keeps the last of repeated
    keys. *)
Fixpoint member (key : string) (members : list (string * JSON))
    : option JSON :=
  match members with
  | [] => None
  | (k, v) :: rest =>
      match member key rest with
      | Some v' => Some v'
      | None => if String.eqb k key then Some v else None
      end
  end.

(** [json.key] for one of the four keys the service reads.  On [null] the
    access throws a [TypeError] ([None]); an object gives its member or
    [undefined]; numbers, strings, booleans and arrays have no property
    of these names. *)
Definition property (json : JSON) (key : string) : option (option JSON) :=
  match json with
  | JNull => None
  | JObject members => Some (member key members)
  | _ => Some None
  end.

(** Lines 36 to 49: from [response.text] to the result, with [JSON.parse]
    as [parse].  The inner [try] covers both the call of [parse] and the
    property accesses. *)
Definition readResponse (parse : string → option JSON)
    (text : option string) : AnalysisResult :=
  let none :=
    {| text := None; summary := Some (JString "No analysis generated.");
       code := None |} in
  match text with
  | None => none
  | Some t =>
      if String.eqb t EmptyString then none
      else
        let fallback :=
          {| text := None; summary := Some (JString t); code := None |} in
        match parse t with
        | None => fallback
        | Some json =>
            match property json "summary", property json "description",
                  property json "code", property json "text" with
            | Some s, Some d, Some c, Some x =>
                {| text := x;
                   summary := if truthy s then s else d;
                   code := c |}
            | _, _, _, _ => fallback
            end
        end
  end.

Definition analyzeScreenshot
    (generateContent : option string → GatewayResponse)
    (base64Image : string) : Outcome :=
  let cleanBase64 := split_comma_1 base64Image in
  match generateContent cleanBase64 with
  | Rejected error => Throws error
  | Resolved text => Returns (readResponse JSON_parse text)
  end.

End geminiService.

(** Every frame of the collection holds an image that loads. *)
Definition decodable (frames : list CapturedFrame) : Prop :=
  Forall (λ f, decodes (dataUrl f) = true) frames.

(** ** Frames as the capture makes them, and their place on the canvas *)

(** The image of the frame has the declared size, and it has pixels. *)
Definition well_formed (f : CapturedFrame) : Prop :=
  bwidth (dataUrl f) = width f ∧ bheight (dataUrl f) = height f
  ∧ 0 < width f ∧ 0 < height f.

(** Every frame is centred at a whole pixel: the difference between its
    width and the greatest width is even.  There [drawImage] copies the
    image; at half a pixel the browser resamples it. *)
Definition whole_offsets (frames : list CapturedFrame) : Prop :=
  ∀ M f, Math_max (width <$> frames) = Some M → f ∈ frames →
         Z.even (M - width f) = true.

(** The call that draws the frame [f], at index [k] of [frames], centred
    and below the frames before it. *)
Definition placed (M : Z) (frames : list CapturedFrame) (k : nat)
    (f : CapturedFrame) : DrawOp :=
  DrawImage (dataUrl f) (StitchEditor.centre M f)
    (StitchEditor.totalHeight (take k frames)).

(** The image loads of the first loop complete in collection order: each
    one that completes is the first of those still loading. *)
Definition in_order (es : list StitchEditor.LoadEvent) : Prop :=
  Forall (λ e, e = StitchEditor.Onload2 ∨ e = StitchEditor.Onload1 0) es.

(** ** The frames of the worked scenario: A is 200 by 100, B is 300 by 150 *)

Definition solid (w h : Z) (c : Color) : Bitmap :=
  {| bwidth := w; bheight := h; bpixel := λ _ _, c |}.

Definition red : Color := RGB 255 0 0.
Definition blue : Color := RGB 0 0 255.

Definition frameA : CapturedFrame :=
  {| id := "a"; dataUrl := solid 200 100 red; width := 200; height := 100;
     timestamp := 1 |}.

Definition frameB : CapturedFrame :=
  {| id := "b"; dataUrl := solid 300 150 blue; width := 300; height := 150;
     timestamp := 2 |}.

(** A [StitchEditor] that has just been mounted. *)
Definition mounted : StitchEditor.Component :=
  {| StitchEditor.canvas := createCanvas; StitchEditor.stitchedImage := None |}.

(** ** Sample gateway responses *)

(** The double quote, and a JSON string literal. *)
Definition dquote : string := String (ascii_of_N 34) EmptyString.

Definition lit (s : string) : string := dquote +:+ s +:+ dquote.

(** The response text [{ summary: (empty), description: d }], both values
    being JSON strings. *)
Definition empty_summary_text : string :=
  "{" +:+ lit "summary" +:+ ":" +:+ lit EmptyString +:+ ","
      +:+ lit "description" +:+ ":" +:+ lit "d" +:+ "}".

(** ** Sample captures *)

Definition screen : Video :=
  {| videoWidth := 4; videoHeight := 3; currentFrame := λ _ _, red |}.

(** An engine for the examples: it prints the exact expansion of a fraction
    in base 36, to at most 27 digits.  Where that expansion is short, as
    for one half ([0.i]) and one quarter ([0.9]), it is what
    [toString(36)] prints; elsewhere an engine rounds to the shortest
    digits, and this one does not. *)
Definition digit36 (d : Z) : ascii :=
  if d <? 10 then ascii_of_N (Z.to_N (48 + d))
  else ascii_of_N (Z.to_N (87 + d)).

Fixpoint fraction36 (fuel : nat) (r : Q) : string :=
  match fuel with
  | O => EmptyString
  | S fuel' =>
      if Qeq_bool r 0 then EmptyString
      else
        let d := Qfloor (r * 36) in
        String (digit36 d) (fraction36 fuel' (Qred (r * 36 - inject_Z d)))
  end.

Definition exact_digits : Engine :=
  {| toString36 := λ n,
       if Qeq_bool n 0 then "0" else "0." +:+ fraction36 27 n |}.

(** The surroundings of a capture in which [Math.random()] returns [r] and
    [Date.now()] returns [t]. *)
Definition sample (r : Q) (t : Z) : Env :=
  {| videoRef := Some screen; random := r; now := t |}.

(** A session in the manual mode: two frames are captured, [Math.random()]
    returning [r1] and then [r2], and the session is finished. *)
Definition two_snaps (r1 r2 : Q) : list Event :=
  [StartCapture; StreamGranted 0%nat; SetMode LONG_MANUAL;
   SnapFrame (sample r1 1); SnapFrame (sample r2 2); Finish].


(** ** The invariant of the frame collections *)



(** ** The state of a pass whose first-loop loads complete in order *)

(** The calls [l] made after the fill all draw a frame at its place, and
    the first [b] frames have been drawn. *)
Definition drawn (M : Z) (frames : list CapturedFrame) (b : nat)
    (l : list DrawOp) : Prop :=
  (∀ op, op ∈ l → ∃ k f, frames !! k = Some f ∧ op = placed M frames k f)
  ∧ (∀ k f, (k < b)%nat → frames !! k = Some f → placed M frames k f ∈ l).

(** The first loop has drawn [a] frames and [drawImages] has drawn [b]. *)
Definition in_flight (M W H : Z) (frames : list CapturedFrame) (a b : nat)
    (s : StitchEditor.Component * StitchEditor.Pass) : Prop :=
  (b ≤ length frames)%nat
  ∧ StitchEditor.maxWidth (snd s) = M
  ∧ StitchEditor.loading (snd s) = drop a frames
  ∧ StitchEditor.currentY (snd s) = StitchEditor.totalHeight (take a frames)
  ∧ StitchEditor.awaiting (snd s) = drop b frames
  ∧ StitchEditor.yOffset (snd s) = StitchEditor.totalHeight (take b frames)
  ∧ (∃ l, StitchEditor.canvas (fst s)
          = {| cwidth := W; cheight := H;
               ops := FillRect black 0 0 W H :: l |}
          ∧ drawn M frames b l)
  ∧ (b = length frames →
     ∃ l0, StitchEditor.stitchedImage (fst s)
           = Some (toDataURL {| cwidth := W; cheight := H;
                                ops := FillRect black 0 0 W H :: l0 |})
           ∧ drawn M frames (length frames) l0).

(** ** src/components/StitchEditor.tsx: the controls of the frame list *)

(** The [disabled] attributes of the two arrow buttons of the frame at
    [index]: [index === 0] and [index === frames.length - 1]. *)
Definition upDisabled (index : nat) : bool :=
  Z.of_nat index =? 0.

Definition downDisabled (frames : list CapturedFrame) (index : nat) : bool :=
  Z.of_nat index =? Z.of_nat (length frames) - 1.

(** A frame as [captureFrame] makes it while the video has no picture yet:
    the canvas is 0 by 0, and its data URL is no image. *)
Definition frameBlank : CapturedFrame :=
  {| id := "e"; dataUrl := solid 0 0 Transparent; width := 0; height := 0;
     timestamp := 3 |}.

(** ** src/components/CaptureStage.tsx: the frame a capture makes *)

(** The frame [captureFrame] appends when the video element is [video]. *)
Definition frameOf `{Engine} (video : Video) (env : Env) : CapturedFrame :=
  let canvas :=
    set_height (videoHeight video) (set_width (videoWidth video) createCanvas) in
  let shown :=
    {| bwidth := videoWidth video; bheight := videoHeight video;
       bpixel := currentFrame video |} in
  {| id := CaptureStage.generateId (random env);
     dataUrl := toDataURL (drawImage shown 0 0 canvas);
     width := videoWidth video;
     height := videoHeight video;
     timestamp := now env |}.

(** The surroundings an event hands to [captureFrame], if it is a
    capture. *)
Definition captured (e : Event) : option Env :=
  match e with
  | CaptureAndEdit env | SnapFrame env | Tick env => Some env
  | _ => None
  end.

(** Every frame the application holds, in the shell, in the mounted stage
    and in the closures of the pending timeouts, satisfies [P]. *)
Definition all_frames (P : CapturedFrame → Prop) (sys : System) : Prop :=
  Forall P (App.frames (app sys))
  ∧ (∀ inst st, stage sys = Some (inst, st) →
       Forall P (CaptureStage.frames st))
  ∧ Forall (λ c, Forall P (CaptureStage.frames (snd c))) (timeouts sys).

(** ** The mounted stage and its interval *)

(** The stage is mounted exactly while the shell is capturing, and the
    interval of its timer effect is live exactly while it is recording in
    the timer mode. *)
Definition consistent (sys : System) : Prop :=
  match stage sys with
  | None => App.appState (app sys) ≠ CAPTURING ∧ interval sys = None
  | Some (i, st) =>
      App.appState (app sys) = CAPTURING
      ∧ (is_some (interval sys) = true
         ↔ CaptureStage.mode st = LONG_TIMER
           ∧ CaptureStage.isRecording st = true)
  end.

(** The frames of instance [i] extend [fs], or instance [i] is gone for
    good: every instance still to come has a greater number. *)
Definition session_grows (i : nat) (fs : list CapturedFrame) (sys : System)
    : Prop :=
  (i < instances sys)%nat
  ∧ ∀ j st, stage sys = Some (j, st) →
      (j < instances sys)%nat ∧ (j = i → fs `prefix_of` CaptureStage.frames st).

(** The frames the captures of a list of surroundings make, in order; a
    capture with no video element makes none. *)
Definition made `{Engine} (envs : list Env) : list CapturedFrame :=
  omap (λ env, (λ video, frameOf video env) <$> videoRef env) envs.

(** A session in the manual mode: the stream [s] is granted, a frame is
    snapped in each of the surroundings [envs], and the session is
    finished. *)
Definition manual_session (s : MediaStream) (envs : list Env) : list Event :=
  [StartCapture; StreamGranted s; SetMode LONG_MANUAL]
  ++ (SnapFrame <$> envs) ++ [Finish].

(** The application after a session was started and its stream granted. *)
Definition stream_granted : System :=
  {| app := App.handleStartCapture App.initial; instances := 1;
     stage := Some (0%nat,
                    CaptureStage.setStream (Some 0%nat) CaptureStage.initial);
     handles := 1; interval := None; timeouts := []; trace := [] |}.

(** A session in the timer mode that is recording, after one tick. *)
Definition timer_recording : list Event :=
  [StartCapture; StreamGranted 0%nat; SetMode LONG_TIMER; StartTimer;
   Tick (sample (1 # 2) 1)].

(** ** src/services/geminiService.ts and [handleAnalyze] of src/App.tsx *)

(** The string holds no comma. *)
Fixpoint no_comma (s : string) : bool :=
  match s with
  | EmptyString => true
  | String c r => negb (N_of_ascii c =? 44)%N && no_comma r
  end.

(** [setAnalysis] and [setIsAnalyzing] of the shell. *)
Definition setAnalysis (r : option AnalysisResult) (st : App.State)
    : App.State :=
  {| App.appState := App.appState st; App.frames := App.frames st;
     App.analysis := r; App.isAnalyzing := App.isAnalyzing st |}.

Definition setIsAnalyzing (b : bool) (st : App.State) : App.State :=
  {| App.appState := App.appState st; App.frames := App.frames st;
     App.analysis := App.analysis st; App.isAnalyzing := b |}.

(** [handleAnalyze] sets two state variables before it awaits the service
    (lines 27 and 28) and two when the promise has settled (lines 30 to
    36); all the updates are absolute, so each part is a function of the
    state it finds.  The second component of the result holds the messages
    given to [alert]. *)
Definition handleAnalyze_begin (st : App.State) : App.State :=
  setAnalysis None (setIsAnalyzing true st).

Definition handleAnalyze_settle (outcome : geminiService.Outcome)
    (st : App.State) : App.State * list string :=
  match outcome with
  | geminiService.Returns result =>
      (setIsAnalyzing false (setAnalysis (Some result) st), [])
  | geminiService.Throws _ =>
      (setIsAnalyzing false st, ["Analysis failed. Please try again."])
  end.

(** The handler when nothing else touches the state while it waits. *)
Definition handleAnalyze
    (generateContent : option string → geminiService.GatewayResponse)
    (imageDataUrl : string) (st : App.State) : App.State * list string :=
  handleAnalyze_settle
    (geminiService.analyzeScreenshot generateContent imageDataUrl)
    (handleAnalyze_begin st).

(** * Properties *)

(** ** The frame collection *)

Section FindIndex.
Context {A : Type} (P : A → Prop) `{∀ x, Decision (P x)}.

Lemma findIndex_absent (l : list A) :
  Forall (λ x, ¬ P x) l → findIndex P l = -1.
Proof.
  intros Hl. unfold findIndex.
  by rewrite (proj2 (list_find_None P l) Hl).
Qed.

Lemma findIndex_first (l1 l2 : list A) (x : A) :
  Forall (λ y, ¬ P y) l1 → P x →
  findIndex P (l1 ++ x :: l2) = Z.of_nat (length l1).
Proof.
  intros Hl1 Hx. unfold findIndex.
  rewrite list_find_app_r by (by apply list_find_None).
  simpl. by rewrite decide_True.
Qed.
End FindIndex.

(** Writing [b] then [a] over two neighbouring cells exchanges them. *)
Lemma exchange_neighbours {A} (l1 l2 : list A) (a b : A) :
  let l := l1 ++ a :: b :: l2 in
  l !! length l1 = Some a ∧ l !! S (length l1) = Some b ∧
  <[length l1 := b]> (<[S (length l1) := a]> l) = l1 ++ b :: a :: l2 ∧
  <[S (length l1) := a]> (<[length l1 := b]> l) = l1 ++ b :: a :: l2.
Proof.
  induction l1 as [|x l1 IH]; simpl; [done|].
  destruct IH as (? & ? & E1 & E2). repeat split; [done|done|..]; by f_equal.
Qed.

Lemma reorder_absent (i : string) (direction : Direction)
    (prev : list CapturedFrame) :
  Forall (λ h, id h ≠ i) prev → App.handleReorderFrame i direction prev = prev.
Proof.
  intros Hp. unfold App.handleReorderFrame.
  rewrite (findIndex_absent (λ h, id h = i)) by done. done.
Qed.

Lemma reorder_down_at (i : string) (l1 l2 : list CapturedFrame)
    (f g : CapturedFrame) :
  id f = i → Forall (λ h, id h ≠ i) l1 →
  App.handleReorderFrame i down (l1 ++ f :: g :: l2) = l1 ++ g :: f :: l2.
Proof.
  intros Hf Hl1. unfold App.handleReorderFrame.
  rewrite (findIndex_first (λ h, id h = i)) by done.
  destruct (exchange_neighbours l1 l2 f g) as (Ha & Hb & _ & E).
  destruct (Z.eqb_spec (Z.of_nat (length l1)) (-1)) as [|_]; [lia|].
  rewrite length_app. simpl length.
  rewrite (proj2 (andb_true_iff _ _))
    by (split; [apply Z.leb_le | apply Z.ltb_lt]; lia).
  replace (Z.to_nat (Z.of_nat (length l1) + 1)) with (S (length l1)) by lia.
  rewrite Nat2Z.id, Ha, Hb. exact E.
Qed.

Lemma reorder_up_at (i : string) (l1 l2 : list CapturedFrame)
    (f g : CapturedFrame) :
  id f = i → id g ≠ i → Forall (λ h, id h ≠ i) l1 →
  App.handleReorderFrame i up (l1 ++ g :: f :: l2) = l1 ++ f :: g :: l2.
Proof.
  intros Hf Hg Hl1. unfold App.handleReorderFrame.
  destruct (exchange_neighbours l1 l2 g f) as (Ha & Hb & E & _).
  replace (findIndex (λ h, id h = i) (l1 ++ g :: f :: l2))
    with (Z.of_nat (S (length l1))).
  2:{ change (l1 ++ g :: f :: l2) with (l1 ++ [g] ++ f :: l2).
      rewrite app_assoc, (findIndex_first (λ h, id h = i)); [|by apply Forall_app; split; [|constructor] |done].
      rewrite length_app. simpl. f_equal. lia. }
  destruct (Z.eqb_spec (Z.of_nat (S (length l1))) (-1)) as [|_]; [lia|].
  rewrite length_app. simpl length.
  rewrite (proj2 (andb_true_iff _ _))
    by (split; [apply Z.leb_le | apply Z.ltb_lt]; lia).
  replace (Z.to_nat (Z.of_nat (S (length l1)) - 1)) with (length l1) by lia.
  rewrite Nat2Z.id, Ha, Hb. exact E.
Qed.

Lemma reorder_up_first (i : string) (l : list CapturedFrame)
    (f : CapturedFrame) :
  id f = i → App.handleReorderFrame i up (f :: l) = f :: l.
Proof.
  intros Hf. unfold App.handleReorderFrame.
  rewrite (findIndex_first (λ h, id h = i) [] l f) by done. done.
Qed.

Lemma reorder_down_last (i : string) (l : list CapturedFrame)
    (f : CapturedFrame) :
  id f = i → Forall (λ h, id h ≠ i) l →
  App.handleReorderFrame i down (l ++ [f]) = l ++ [f].
Proof.
  intros Hf Hl. unfold App.handleReorderFrame.
  rewrite (findIndex_first (λ h, id h = i)) by done.
  destruct (Z.eqb_spec (Z.of_nat (length l)) (-1)) as [|_]; [lia|].
  rewrite length_app. simpl length.
  destruct (Z.ltb_spec (Z.of_nat (length l) + 1) (Z.of_nat (length l + 1)));
    [lia|].
  by rewrite andb_false_r.
Qed.

(** C5.  [swap(id, direction)] on any collection.  Let [f] be the frame
    with the given id (the first one, should the id occur twice).  Moving
    it up exchanges it with the frame [g] just before it, moving it down
    exchanges it with the frame [g] just after it, and the frames before and
    after the pair, [l1] and [l2], stay where they are.  Moving the first
    frame up, moving the last frame down, and moving an id that no frame
    has, all give the collection back unchanged. *)
Theorem C5_swap_exchanges_neighbours (i : string) (f : CapturedFrame)
    (l1 : list CapturedFrame) :
  id f = i → Forall (λ h, id h ≠ i) l1 →
  (∀ g l2, id g ≠ i →
     App.handleReorderFrame i up (l1 ++ g :: f :: l2) = l1 ++ f :: g :: l2) ∧
  (∀ g l2,
     App.handleReorderFrame i down (l1 ++ f :: g :: l2) = l1 ++ g :: f :: l2) ∧
  (∀ l2, App.handleReorderFrame i up (f :: l2) = f :: l2) ∧
  App.handleReorderFrame i down (l1 ++ [f]) = l1 ++ [f] ∧
  (∀ direction prev, Forall (λ h, id h ≠ i) prev →
     App.handleReorderFrame i direction prev = prev).
Proof.
  intros Hf Hl1. repeat split.
  - intros g l2 Hg. by apply reorder_up_at.
  - intros g l2. by apply reorder_down_at.
  - intros l2. by apply reorder_up_first.
  - by apply reorder_down_last.
  - intros direction prev Hp. by apply reorder_absent.
Qed.

Lemma C5_swap_exchanges_neighbours_witness :
  id frameB = "b" ∧ Forall (λ h, id h ≠ "b") [frameA]
  ∧ App.handleReorderFrame "b" up [frameA; frameB] = [frameB; frameA]
  ∧ App.handleReorderFrame "b" down [frameA; frameB] = [frameA; frameB].
Proof.
  assert (Hb : id frameB = "b") by reflexivity.
  assert (Ha : Forall (λ h, id h ≠ "b") [frameA])
    by (constructor; [discriminate|constructor]).
  split; [exact Hb|]. split; [exact Ha|].
  destruct (C5_swap_exchanges_neighbours "b" frameB [] Hb (Forall_nil _))
    as (Hup & _).
  destruct (C5_swap_exchanges_neighbours "b" frameB [frameA] Hb Ha)
    as (_ & _ & _ & Hlast & _).
  split; [|exact Hlast].
  apply (Hup frameA []). discriminate.
Defined.

Lemma totalHeight_from (a : Z) (l : list CapturedFrame) :
  foldl (λ acc f, acc + height f) a l = a + StitchEditor.totalHeight l.
Proof.
  unfold StitchEditor.totalHeight. revert a.
  induction l as [|f l IH]; intros a; simpl; [lia|].
  rewrite IH, (IH (0 + height f)). lia.
Qed.

Lemma totalHeight_cons (f : CapturedFrame) (l : list CapturedFrame) :
  StitchEditor.totalHeight (f :: l) = height f + StitchEditor.totalHeight l.
Proof.
  unfold StitchEditor.totalHeight at 1. simpl. by rewrite totalHeight_from.
Qed.

Lemma totalHeight_app (l1 l2 : list CapturedFrame) :
  StitchEditor.totalHeight (l1 ++ l2)
  = StitchEditor.totalHeight l1 + StitchEditor.totalHeight l2.
Proof.
  induction l1 as [|f l1 IH]; simpl; [done|].
  rewrite !totalHeight_cons, IH. lia.
Qed.

Lemma delete_absent (i : string) (prev : list CapturedFrame) :
  Forall (λ h, id h ≠ i) prev → App.handleDeleteFrame i prev = prev.
Proof.
  intros Hp. unfold App.handleDeleteFrame.
  induction Hp as [|h l Hh Hl IH]; [done|].
  rewrite filter_cons_True by done. by rewrite IH.
Qed.




Lemma neighbours_split {A} (l : list A) (j : nat) (a b : A) :
  l !! j = Some a → l !! S j = Some b →
  l = take j l ++ a :: b :: drop (S (S j)) l
  ∧ <[j := b]> (<[S j := a]> l) = take j l ++ b :: a :: drop (S (S j)) l
  ∧ <[S j := a]> (<[j := b]> l) = take j l ++ b :: a :: drop (S (S j)) l.
Proof.
  intros Ha Hb.
  assert (El : l = take j l ++ a :: b :: drop (S (S j)) l).
  { rewrite <- (drop_S l b (S j) Hb). symmetry. by apply take_drop_middle. }
  assert (Hlen : length (take j l) = j).
  { apply length_take_le. apply lookup_lt_Some in Ha. lia. }
  split; [exact El|].
  generalize dependent (drop (S (S j)) l). generalize dependent (take j l).
  intros l1 Hlen l2 El. subst j.
  destruct (exchange_neighbours l1 l2 a b) as (_ & _ & E1 & E2).
  rewrite El. split; [exact E1|exact E2].
Qed.

(** [handleReorderFrame] gives the collection back or exchanges two
    neighbours of it. *)
Lemma reorder_cases (i : string) (direction : Direction)
    (l : list CapturedFrame) :
  App.handleReorderFrame i direction l = l
  ∨ ∃ l1 a b l2,
      l = l1 ++ a :: b :: l2
      ∧ App.handleReorderFrame i direction l = l1 ++ b :: a :: l2.
Proof.
  unfold App.handleReorderFrame, findIndex.
  destruct (list_find (λ f, id f = i) l) as [[k f]|] eqn:Hfind; [|by left].
  apply list_find_Some in Hfind as (Hk & _ & _).
  destruct (Z.eqb_spec (Z.of_nat k) (-1)) as [|_]; [lia|].
  destruct direction.
  - destruct ((0 <=? Z.of_nat k - 1) && (Z.of_nat k - 1 <? Z.of_nat (length l)))
      eqn:Hguard; [|by left].
    apply andb_true_iff in Hguard as [Hlo _]. apply Z.leb_le in Hlo.
    destruct k as [|j]; [lia|].
    replace (Z.to_nat (Z.of_nat (S j) - 1)) with j by lia.
    rewrite Nat2Z.id, Hk.
    destruct (l !! j) as [g|] eqn:Hj.
    2:{ apply lookup_ge_None in Hj. apply lookup_lt_Some in Hk. lia. }
    destruct (neighbours_split l j g f Hj Hk) as (El & E & _).
    right. exists (take j l), g, f, (drop (S (S j)) l). by rewrite E.
  - destruct ((0 <=? Z.of_nat k + 1) && (Z.of_nat k + 1 <? Z.of_nat (length l)))
      eqn:Hguard; [|by left].
    apply andb_true_iff in Hguard as [_ Hhi]. apply Z.ltb_lt in Hhi.
    replace (Z.to_nat (Z.of_nat k + 1)) with (S k) by lia.
    rewrite Nat2Z.id, Hk.
    destruct (l !! S k) as [g|] eqn:Hj.
    2:{ apply lookup_ge_None in Hj. lia. }
    destruct (neighbours_split l k f g Hk Hj) as (El & _ & E).
    right. exists (take k l), f, g, (drop (S (S k)) l). by rewrite E.
Qed.

Lemma reorder_Permutation (i : string) (direction : Direction)
    (l : list CapturedFrame) :
  App.handleReorderFrame i direction l ≡ₚ l.
Proof.
  destruct (reorder_cases i direction l) as [->|(l1 & a & b & l2 & El & ->)];
    [done|].
  rewrite El. apply Permutation_app_head. apply perm_swap.
Qed.

(** ** The stitching effect *)

Lemma Math_max_from (a : Z) (xs : list Z) :
  ∃ m, foldl (λ acc x, Some (match acc with None => x | Some m => Z.max m x end))
         (Some a) xs = Some m
       ∧ m ∈ a :: xs ∧ Forall (λ x, x ≤ m) (a :: xs).
Proof.
  revert a. induction xs as [|x xs IH]; intros a; simpl.
  - exists a. split; [done|]. split; [by left|]. by repeat constructor.
  - destruct (IH (Z.max a x)) as (m & E & Hin & Hle).
    exists m. split; [done|].
    inversion Hle as [|? ? Hm Hle']; subst. split.
    + apply elem_of_cons in Hin as [->|Hin].
      * destruct (Z.max_spec a x) as [[_ ->]|[_ ->]]; [right; left|left].
      * by right; right.
    + repeat constructor; [lia|lia|done].
Qed.

Lemma Math_max_nonempty (xs : list Z) :
  xs ≠ [] →
  ∃ m, Math_max xs = Some m ∧ m ∈ xs ∧ Forall (λ x, x ≤ m) xs.
Proof.
  destruct xs as [|a xs]; [done|]. intros _. apply (Math_max_from a xs).
Qed.

Lemma totalHeight_sum (frames : list CapturedFrame) :
  StitchEditor.totalHeight frames = foldr Z.add 0 (height <$> frames).
Proof.
  induction frames as [|f l IH]; [done|].
  rewrite totalHeight_cons, IH. done.
Qed.

(** What the loop of [drawImages] leaves on the canvas. *)
Lemma drawImages_loop_spec (M : Z) (frames : list CapturedFrame) :
  decodable frames →
  ∀ (c : Canvas) (y : Z),
  ∃ c', StitchEditor.drawImages_loop M frames c y
        = Some (c', y + StitchEditor.totalHeight frames)
      ∧ cwidth c' = cwidth c ∧ cheight c' = cheight c
      ∧ length (ops c') = (length (ops c) + length frames)%nat
      ∧ (∀ j, (j < length (ops c))%nat → ops c' !! j = ops c !! j)
      ∧ ∀ k frame, frames !! k = Some frame →
          ops c' !! (length (ops c) + k)%nat
          = Some (DrawImage (dataUrl frame) (StitchEditor.centre M frame)
                    (y + StitchEditor.totalHeight (take k frames))).
Proof.
  induction 1 as [|f l Hf Hl IH]; intros c y.
  - exists c. simpl. unfold StitchEditor.totalHeight. simpl.
    rewrite Z.add_0_r, Nat.add_0_r. repeat split; try done.
  - simpl. rewrite Hf. simpl.
    set (c1 := drawImage (dataUrl f) (StitchEditor.centre M f) y c).
    destruct (IH c1 (y + height f)) as (c' & E & Hw & Hh & Hlen & Hold & Hnew).
    assert (Hc1 : ops c1 = ops c ++ [DrawImage (dataUrl f) (StitchEditor.centre M f) y])
      by done.
    assert (Hl1 : length (ops c1) = S (length (ops c)))
      by (rewrite Hc1, length_app; simpl; lia).
    exists c'. rewrite totalHeight_cons.
    split; [rewrite E; do 2 f_equal; lia|].
    split; [by rewrite Hw|]. split; [by rewrite Hh|].
    split; [lia|]. split.
    + intros j Hj. rewrite Hold by lia. rewrite Hc1. by apply lookup_app_l.
    + intros [|k] frame Hk; simpl in Hk.
      * injection Hk as <-. rewrite Nat.add_0_r, Hold by lia.
        rewrite Hc1, lookup_app_r by lia. rewrite Nat.sub_diag. simpl.
        unfold StitchEditor.totalHeight. simpl. do 2 f_equal. lia.
      * replace (length (ops c) + S k)%nat with (length (ops c1) + k)%nat by lia.
        rewrite (Hnew k frame Hk). simpl take. rewrite totalHeight_cons.
        do 2 f_equal. lia.
Qed.

(** The canvas the synchronous part of the effect leaves behind. *)
Lemma effect_nonempty (frames : list CapturedFrame) (st : StitchEditor.Component) :
  frames ≠ [] →
  ∃ M, Math_max (width <$> frames) = Some M
     ∧ M ∈ width <$> frames
     ∧ Forall (λ f, width f ≤ M) frames
     ∧ StitchEditor.effect frames st
       = ({| StitchEditor.canvas :=
               {| cwidth := M; cheight := StitchEditor.totalHeight frames;
                  ops := [FillRect black 0 0 M (StitchEditor.totalHeight frames)] |};
             StitchEditor.stitchedImage := StitchEditor.stitchedImage st |},
          Some {| StitchEditor.maxWidth := M;
                  StitchEditor.currentY := 0; StitchEditor.loading := frames;
                  StitchEditor.yOffset := 0; StitchEditor.awaiting := frames |}).
Proof.
  intros Hne.
  destruct (Math_max_nonempty (width <$> frames)) as (M & E & Hin & Hle).
  { by destruct frames. }
  exists M. split; [done|]. split; [done|]. split.
  { apply list.Forall_forall. intros f Hf.
    apply (proj1 (list.Forall_forall _ _) Hle).
    apply list_elem_of_fmap. by exists f. }
  unfold StitchEditor.effect. destruct frames as [|f l]; [done|].
  by rewrite E.
Qed.

Lemma drawImages_loop_cons (M : Z) (f : CapturedFrame)
    (l : list CapturedFrame) (c : Canvas) (y : Z) :
  decodes (dataUrl f) = true →
  StitchEditor.drawImages_loop M (f :: l) c y
  = StitchEditor.drawImages_loop M l
      (drawImage (dataUrl f) (StitchEditor.centre M f) y c) (y + height f).
Proof. intros Hf. simpl. by rewrite Hf. Qed.

Lemma run_Onload2 (es : list StitchEditor.LoadEvent)
    (st : StitchEditor.Component) (p : StitchEditor.Pass)
    (f : CapturedFrame) (rest : list CapturedFrame) :
  StitchEditor.awaiting p = f :: rest → decodes (dataUrl f) = true →
  StitchEditor.run (StitchEditor.Onload2 :: es) (st, p)
  = StitchEditor.run es (StitchEditor.drawImages_onload f rest (st, p)).
Proof. intros Ha Hf. simpl. by rewrite Ha, Hf. Qed.

(** The chain of awaited loads of [drawImages], as events of the pass. *)
Lemma run_drawImages (frames : list CapturedFrame) :
  decodable frames → frames ≠ [] →
  ∀ (st : StitchEditor.Component) (M cy : Z) (ld : list CapturedFrame) (y : Z),
  ∃ c' , StitchEditor.drawImages_loop M frames (StitchEditor.canvas st) y
         = Some (c', y + StitchEditor.totalHeight frames)
       ∧ StitchEditor.run (replicate (length frames) StitchEditor.Onload2)
           (st, {| StitchEditor.maxWidth := M;
                   StitchEditor.currentY := cy; StitchEditor.loading := ld;
                   StitchEditor.yOffset := y; StitchEditor.awaiting := frames |})
         = Some ({| StitchEditor.canvas := c';
                    StitchEditor.stitchedImage := Some (toDataURL c') |},
                 {| StitchEditor.maxWidth := M;
                    StitchEditor.currentY := cy; StitchEditor.loading := ld;
                    StitchEditor.yOffset := y + StitchEditor.totalHeight frames;
                    StitchEditor.awaiting := [] |}).
Proof.
  induction 1 as [|f l Hf Hl IH]; [done|]. intros _ st M cy ld y.
  rewrite drawImages_loop_cons by done.
  cbn [length replicate].
  rewrite (run_Onload2 _ _ _ f l) by done.
  rewrite totalHeight_cons, Z.add_assoc.
  destruct l as [|g l'].
  - change (StitchEditor.totalHeight []) with 0. rewrite Z.add_0_r.
    eexists. split; reflexivity.
  - set (st1 := {| StitchEditor.canvas :=
                     drawImage (dataUrl f) (StitchEditor.centre M f) y
                       (StitchEditor.canvas st);
                   StitchEditor.stitchedImage := StitchEditor.stitchedImage st |}).
    destruct (IH ltac:(done) st1 M cy ld (y + height f)) as (c' & E & R).
    exists c'. split; [exact E|exact R].
Qed.

Lemma centre_exact (M : Z) (frame : CapturedFrame) :
  (StitchEditor.centre M frame == inject_Z (M - width frame) / 2)%Q.
Proof. unfold StitchEditor.centre. apply Qred_correct. Qed.

(** A pass never changes the size of the canvas, and once [drawImages] has
    gone through all frames a composite of that size is published. *)
Lemma run_keeps_dimensions (M H : Z) (es : list StitchEditor.LoadEvent) :
  ∀ s s',
    StitchEditor.run es s = Some s' →
    cwidth (StitchEditor.canvas (fst s)) = M →
    cheight (StitchEditor.canvas (fst s)) = H →
    (StitchEditor.awaiting (snd s) = [] →
     ∃ img, StitchEditor.stitchedImage (fst s) = Some img
            ∧ bwidth img = M ∧ bheight img = H) →
    cwidth (StitchEditor.canvas (fst s')) = M
    ∧ cheight (StitchEditor.canvas (fst s')) = H
    ∧ (StitchEditor.awaiting (snd s') = [] →
       ∃ img, StitchEditor.stitchedImage (fst s') = Some img
              ∧ bwidth img = M ∧ bheight img = H).
Proof.
  induction es as [|e es IH]; intros [st p] s' Hrun Hw Hh Hpub.
  - injection Hrun as <-. done.
  - cbn [StitchEditor.run] in Hrun.
    destruct (StitchEditor.step e (st, p)) as [s1|] eqn:Hstep; [|done].
    apply (IH s1 s' Hrun); clear IH Hrun;
      unfold StitchEditor.step in Hstep; destruct e as [k|].
    1,3,5: destruct (StitchEditor.loading p !! k) as [f|]; [|done];
           destruct (decodes (dataUrl f)); [|done];
           injection Hstep as <-; cbn in *; done.
    all: destruct (StitchEditor.awaiting p) as [|f rest] eqn:Ha; [done|];
         destruct (decodes (dataUrl f)); [|done];
         injection Hstep as <-; cbn in *; try done.
    intros ->. eexists. split; [reflexivity|]. done.
Qed.

(** C2.  For a non-empty collection the effect gives the canvas the width
    [M], the greatest of the frame widths, and the height that is the sum
    of the frame heights; no load event changes them, every composite the
    pass publishes has this width and this height, and when the images
    load the pass does publish one. *)
Theorem C2_composite_dimensions (frames : list CapturedFrame)
    (st : StitchEditor.Component) :
  frames ≠ [] →
  ∃ M st1 p,
    (M ∈ width <$> frames ∧ Forall (λ f, width f ≤ M) frames)
    ∧ StitchEditor.effect frames st = (st1, Some p)
    ∧ (∀ es st' p',
         StitchEditor.run es (st1, p) = Some (st', p') →
         cwidth (StitchEditor.canvas st') = M
         ∧ cheight (StitchEditor.canvas st') = foldr Z.add 0 (height <$> frames)
         ∧ (StitchEditor.awaiting p' = [] →
            ∃ img, StitchEditor.stitchedImage st' = Some img
                   ∧ bwidth img = M
                   ∧ bheight img = foldr Z.add 0 (height <$> frames)))
    ∧ (decodable frames →
       ∃ st' p',
         StitchEditor.run (replicate (length frames) StitchEditor.Onload2) (st1, p)
         = Some (st', p')
         ∧ StitchEditor.awaiting p' = []).
Proof.
  intros Hne.
  destruct (effect_nonempty frames st Hne) as (M & _ & Hin & Hle & Eeff).
  eexists M, _, _. split; [done|]. split; [exact Eeff|]. split.
  - intros es st' p' Hrun. rewrite <- totalHeight_sum.
    apply (run_keeps_dimensions M (StitchEditor.totalHeight frames) es _ _ Hrun);
      [done|done|]. cbn. intros ->. done.
  - intros Hdec.
    destruct (run_drawImages frames Hdec Hne
                {| StitchEditor.canvas :=
                     {| cwidth := M; cheight := StitchEditor.totalHeight frames;
                        ops := [FillRect black 0 0 M (StitchEditor.totalHeight frames)] |};
                   StitchEditor.stitchedImage := StitchEditor.stitchedImage st |}
                M 0 frames 0) as (c' & _ & R).
    eexists _, _. split; [exact R|done].
Qed.

Lemma C2_composite_dimensions_witness :
  [frameA; frameB] ≠ []
  ∧ ∃ M st1 p,
      (M ∈ width <$> [frameA; frameB]
       ∧ Forall (λ f, width f ≤ M) [frameA; frameB])
      ∧ StitchEditor.effect [frameA; frameB] mounted = (st1, Some p)
      ∧ cwidth (StitchEditor.canvas st1) = M
      ∧ cheight (StitchEditor.canvas st1) = 250.
Proof.
  assert (Hne : [frameA; frameB] ≠ []) by discriminate.
  split; [exact Hne|].
  destruct (C2_composite_dimensions [frameA; frameB] mounted Hne)
    as (M & st1 & p & HM & He & Hrun & _).
  exists M, st1, p. split; [exact HM|]. split; [exact He|].
  destruct (Hrun [] st1 p eq_refl) as (Hw & Hh & _). by split.
Defined.

(** C7.  For the empty collection the effect sets [stitchedImage] to
    [null], leaves the canvas as it was (no resize, no fill, no draw), and
    starts no load: the render ends there, with no event to wait for, and
    nothing is encoded. *)
Theorem C7_empty_collection_no_composite (st : StitchEditor.Component) :
  StitchEditor.effect [] st
  = ({| StitchEditor.canvas := StitchEditor.canvas st;
        StitchEditor.stitchedImage := None |}, None)
  ∧ StitchEditor.render [] [] st
    = Some {| StitchEditor.canvas := StitchEditor.canvas st;
              StitchEditor.stitchedImage := None |}
  ∧ ∀ e es, StitchEditor.render [] (e :: es) st = None.
Proof. repeat split. Qed.

(** C3 on the code.  The collection [A; B] is rendered twice from the same
    component; the renders differ only in the order in which the browser
    completes the two image loads started by the first loop.  When A loads
    before B the first loop draws what [drawImages] draws, and the top left
    pixel of the composite is the black of the background.  When B loads
    before A, B is drawn at the top over the full width; [drawImages] then
    repaints only the middle of the first band with A, and the top left
    pixel of the composite is a pixel of B. *)
Theorem C3_composite_depends_on_load_order :
  ∃ st1 st2 img1 img2,
    StitchEditor.render [frameA; frameB]
      [StitchEditor.Onload1 0; StitchEditor.Onload1 0;
       StitchEditor.Onload2; StitchEditor.Onload2] mounted = Some st1
    ∧ StitchEditor.render [frameA; frameB]
        [StitchEditor.Onload1 1; StitchEditor.Onload1 0;
         StitchEditor.Onload2; StitchEditor.Onload2] mounted = Some st2
    ∧ StitchEditor.stitchedImage st1 = Some img1
    ∧ StitchEditor.stitchedImage st2 = Some img2
    ∧ bpixel img1 0 0 = black
    ∧ bpixel img2 0 0 = blue
    ∧ img1 ≠ img2.
Proof.
  eexists _, _, _, _.
  split; [reflexivity|]. split; [reflexivity|].
  split; [reflexivity|]. split; [reflexivity|].
  split; [vm_compute; reflexivity|]. split; [vm_compute; reflexivity|].
  intros E. apply (f_equal (λ b, bpixel b 0 0)) in E.
  vm_compute in E. discriminate E.
Qed.

(** Without the loads of the first loop the composite is a function of the
    collection: whatever the canvas and [stitchedImage] held before, the
    chain of [drawImages] run on its own publishes the same image. *)
Lemma drawImages_alone_deterministic (frames : list CapturedFrame)
    (st st' : StitchEditor.Component) :
  frames ≠ [] → decodable frames →
  ∃ img,
    StitchEditor.stitchedImage
      <$> StitchEditor.render frames
            (replicate (length frames) StitchEditor.Onload2) st
    = Some (Some img)
    ∧ StitchEditor.stitchedImage
        <$> StitchEditor.render frames
              (replicate (length frames) StitchEditor.Onload2) st'
      = Some (Some img).
Proof.
  intros Hne Hdec.
  destruct (effect_nonempty frames st Hne) as (M & EM & _ & _ & E1).
  destruct (effect_nonempty frames st' Hne) as (M' & EM' & _ & _ & E2).
  assert (M' = M) as -> by congruence.
  unfold StitchEditor.render. rewrite E1, E2.
  destruct (run_drawImages frames Hdec Hne
              {| StitchEditor.canvas :=
                   {| cwidth := M; cheight := StitchEditor.totalHeight frames;
                      ops := [FillRect black 0 0 M (StitchEditor.totalHeight frames)] |};
                 StitchEditor.stitchedImage := StitchEditor.stitchedImage st |}
              M 0 frames 0) as (c1 & L1 & R1).
  destruct (run_drawImages frames Hdec Hne
              {| StitchEditor.canvas :=
                   {| cwidth := M; cheight := StitchEditor.totalHeight frames;
                      ops := [FillRect black 0 0 M (StitchEditor.totalHeight frames)] |};
                 StitchEditor.stitchedImage := StitchEditor.stitchedImage st' |}
              M 0 frames 0) as (c2 & L2 & R2).
  cbn [StitchEditor.canvas] in L1, L2.
  assert (c2 = c1) as -> by congruence.
  exists (toDataURL c1). rewrite R1, R2. done.
Qed.

(** ** The pixels of the composite *)

Lemma height_prefix (frames : list CapturedFrame) (k : nat) (f : CapturedFrame) :
  frames !! k = Some f →
  StitchEditor.totalHeight (take (S k) frames)
  = StitchEditor.totalHeight (take k frames) + height f.
Proof.
  intros Hk. rewrite (take_S_r _ _ _ Hk), totalHeight_app.
  by rewrite totalHeight_cons, Z.add_0_r.
Qed.

Lemma totalHeight_nonneg (frames : list CapturedFrame) :
  Forall well_formed frames → 0 ≤ StitchEditor.totalHeight frames.
Proof.
  induction 1 as [|f l (_ & _ & _ & Hf) _ IH].
  - done.
  - rewrite totalHeight_cons. lia.
Qed.

Lemma prefix_heights_mono (frames : list CapturedFrame) (j k : nat) :
  Forall well_formed frames → (j ≤ k)%nat →
  StitchEditor.totalHeight (take j frames)
  ≤ StitchEditor.totalHeight (take k frames).
Proof.
  intros Hwf Hjk.
  rewrite <- (take_drop j (take k frames)), totalHeight_app.
  rewrite take_take, Nat.min_l by done.
  pose proof (totalHeight_nonneg (drop j (take k frames))) as Hd.
  assert (0 ≤ StitchEditor.totalHeight (drop j (take k frames)));
    [|lia].
  apply Hd. by apply Forall_drop, Forall_take.
Qed.

Lemma covers_placed_rows (M : Z) (frames : list CapturedFrame) (k : nat)
    (f : CapturedFrame) (px py : Z) :
  well_formed f → frames !! k = Some f →
  covers (placed M frames k f) px py = true →
  StitchEditor.totalHeight (take k frames) ≤ py
  < StitchEditor.totalHeight (take (S k) frames).
Proof.
  intros (_ & Hh & _ & _) Hk Hc. rewrite (height_prefix frames k f Hk).
  unfold placed, covers in Hc.
  apply andb_true_iff in Hc as [Hc Hhi]. apply andb_true_iff in Hc as [_ Hlo].
  apply Z.leb_le in Hlo. apply Z.ltb_lt in Hhi. lia.
Qed.

(** Two frames at different indices do not paint the same pixel. *)
Lemma placed_exclusive (M : Z) (frames : list CapturedFrame) (j k : nat)
    (g f : CapturedFrame) (px py : Z) :
  Forall well_formed frames →
  frames !! j = Some g → frames !! k = Some f →
  covers (placed M frames j g) px py = true →
  covers (placed M frames k f) px py = true →
  j = k.
Proof.
  intros Hwf Hj Hk Hcj Hck.
  assert (Hg : well_formed g)
    by (apply (proj1 (list.Forall_forall _ _) Hwf), list_elem_of_lookup; eauto).
  assert (Hf : well_formed f)
    by (apply (proj1 (list.Forall_forall _ _) Hwf), list_elem_of_lookup; eauto).
  pose proof (covers_placed_rows M frames j g px py Hg Hj Hcj) as Rj.
  pose proof (covers_placed_rows M frames k f px py Hf Hk Hck) as Rk.
  destruct (Nat.lt_trichotomy j k) as [Hlt|[->|Hlt]]; [|done|].
  - pose proof (prefix_heights_mono frames (S j) k Hwf ltac:(lia)). lia.
  - pose proof (prefix_heights_mono frames (S k) j Hwf ltac:(lia)). lia.
Qed.

(** The colour of a pixel after the calls [l], all of which draw frames at
    their places: the colour of the frame that covers the pixel, if it has
    been drawn, and the colour underneath if no frame covers it. *)
Lemma paint_placed (M : Z) (frames : list CapturedFrame) (px py : Z)
    (under : Color) (l : list DrawOp) :
  Forall well_formed frames →
  (∀ op, op ∈ l → ∃ k f, frames !! k = Some f ∧ op = placed M frames k f) →
  (∀ k f, frames !! k = Some f →
     covers (placed M frames k f) px py = true →
     placed M frames k f ∈ l →
     foldl (λ u op, paint op px py u) under l
     = colour_of (placed M frames k f) px py)
  ∧ ((∀ k f, frames !! k = Some f →
        covers (placed M frames k f) px py = false) →
     foldl (λ u op, paint op px py u) under l = under).
Proof.
  intros Hwf. induction l as [|op l IH] using rev_ind; intros Hall.
  - split; [|done]. intros k f _ _ Hin. by apply elem_of_nil in Hin.
  - assert (Hl : ∀ op', op' ∈ l →
                 ∃ k f, frames !! k = Some f ∧ op' = placed M frames k f).
    { intros op' Hin. apply Hall, elem_of_app. by left. }
    destruct (IH Hl) as [IHc IHn].
    destruct (Hall op) as (j & g & Hj & ->).
    { apply elem_of_app. right. by left. }
    rewrite foldl_app. cbn [foldl]. unfold paint at 1 3. split.
    + intros k f Hk Hc Hin.
      destruct (covers (placed M frames j g) px py) eqn:Hcj.
      * assert (j = k) as -> by (by apply (placed_exclusive M frames j k g f px py)).
        by simplify_eq.
      * apply IHc; [done|done|].
        apply elem_of_app in Hin as [Hin|Hin]; [done|].
        apply list_elem_of_singleton in Hin. rewrite <- Hin in Hcj. congruence.
    + intros Hno. rewrite (Hno j g Hj). by apply IHn.
Qed.

Lemma drop_head {A} (l : list A) (n : nat) (x : A) (rest : list A) :
  drop n l = x :: rest → l !! n = Some x ∧ drop (S n) l = rest.
Proof.
  intros Hd. split.
  - rewrite <- (Nat.add_0_r n), <- lookup_drop, Hd. done.
  - replace (S n) with (n + 1)%nat by lia.
    rewrite <- (drop_drop l 1 n), Hd. done.
Qed.

Lemma drawn_snoc (M : Z) (frames : list CapturedFrame) (b k : nat)
    (f : CapturedFrame) (l : list DrawOp) :
  frames !! k = Some f → drawn M frames b l →
  drawn M frames b (l ++ [placed M frames k f])
  ∧ (k = b → drawn M frames (S b) (l ++ [placed M frames k f])).
Proof.
  intros Hk [Hall Hdone].
  assert (Hall' : ∀ op, op ∈ l ++ [placed M frames k f] →
                  ∃ k' f', frames !! k' = Some f' ∧ op = placed M frames k' f').
  { intros op Hin. apply elem_of_app in Hin as [Hin|Hin]; [by apply Hall|].
    apply list_elem_of_singleton in Hin as ->. by exists k, f. }
  split; [split; [done|]|intros ->; split; [done|]].
  - intros k' f' Hlt Hk'. apply elem_of_app. left. by apply Hdone.
  - intros k' f' Hlt Hk'. apply elem_of_app.
    destruct (decide (k' = b)) as [->|Hne].
    + right. simplify_eq. by left.
    + left. apply Hdone; [lia|done].
Qed.

(** One load event of an in-order pass. *)
Lemma in_flight_step (M W H : Z) (frames : list CapturedFrame) (a b : nat)
    (e : StitchEditor.LoadEvent)
    (s s' : StitchEditor.Component * StitchEditor.Pass) :
  e = StitchEditor.Onload2 ∨ e = StitchEditor.Onload1 0 →
  in_flight M W H frames a b s → StitchEditor.step e s = Some s' →
  ∃ a' b', in_flight M W H frames a' b' s'.
Proof.
  intros He (Hb & HM & Hload & HcY & Hawait & HyO & (l & Hcanvas & Hdrawn) & Hpub)
    Hstep.
  destruct s as [st p]. cbn [fst snd] in *.
  unfold StitchEditor.step in Hstep. destruct He as [-> | ->].
  - (* a load of [drawImages] *)
    destruct (StitchEditor.awaiting p) as [|f rest] eqn:Ha; [done|].
    destruct (decodes (dataUrl f)); [|done]. cbn [negb] in Hstep.
    injection Hstep as <-.
    symmetry in Hawait. apply drop_head in Hawait as [Hk Hrest].
    assert (Hlt : (b < length frames)%nat) by (by apply lookup_lt_Some in Hk).
    destruct (drawn_snoc M frames b b f l Hk Hdrawn) as [_ Hnew].
    specialize (Hnew eq_refl).
    exists a, (S b). unfold in_flight, StitchEditor.drawImages_onload.
    cbn [fst snd StitchEditor.maxWidth StitchEditor.loading
         StitchEditor.currentY StitchEditor.awaiting StitchEditor.yOffset
         StitchEditor.canvas StitchEditor.stitchedImage].
    rewrite HM, HyO, Hcanvas.
    split; [lia|]. split; [done|]. split; [done|]. split; [done|].
    split; [done|]. split; [by rewrite (height_prefix frames b f Hk)|].
    split; [by exists (l ++ [placed M frames b f])|].
    intros Hn. exists (l ++ [placed M frames b f]).
    rewrite <- Hn. split; [|done].
    assert (rest = []) as ->; [|done].
    rewrite <- Hrest. apply drop_ge. lia.
  - (* a load of the first loop *)
    destruct (StitchEditor.loading p !! 0%nat) as [f|] eqn:Hl; [|done].
    destruct (decodes (dataUrl f)); [|done]. cbn [negb] in Hstep.
    injection Hstep as <-.
    destruct (StitchEditor.loading p) as [|f' rest] eqn:Hloading; [done|].
    cbn in Hl. injection Hl as ->.
    symmetry in Hload. apply drop_head in Hload as [Hk Hrest].
    destruct (drawn_snoc M frames b a f l Hk Hdrawn) as [Hnew _].
    exists (S a), b. unfold in_flight, StitchEditor.forEach_onload.
    cbn [fst snd StitchEditor.maxWidth StitchEditor.loading
         StitchEditor.currentY StitchEditor.awaiting StitchEditor.yOffset
         StitchEditor.canvas StitchEditor.stitchedImage delete list_delete].
    rewrite HM, HcY, Hcanvas.
    split; [done|]. split; [done|]. split; [done|].
    split; [by rewrite (height_prefix frames a f Hk)|].
    split; [done|]. split; [done|].
    split; [by exists (l ++ [placed M frames a f])|done].
Qed.

Lemma in_flight_run (M W H : Z) (frames : list CapturedFrame)
    (es : list StitchEditor.LoadEvent) :
  in_order es →
  ∀ a b s s',
    in_flight M W H frames a b s → StitchEditor.run es s = Some s' →
    ∃ a' b', in_flight M W H frames a' b' s'.
Proof.
  induction 1 as [|e es He Hes IH]; intros a b s s' Hs Hrun.
  - injection Hrun as <-. by exists a, b.
  - cbn [StitchEditor.run] in Hrun.
    destruct (StitchEditor.step e s) as [s1|] eqn:Hstep; [|done].
    destruct (in_flight_step M W H frames a b e s s1 He Hs Hstep)
      as (a1 & b1 & Hs1).
    by apply (IH a1 b1 s1 s').
Qed.

(** When the loads of the first loop complete in collection order, whatever
    their interleaving with those of [drawImages], and the frames are
    centred at whole pixels, the composite that is published shows each
    frame at its place, and the black background wherever no frame is. *)
Lemma in_order_composite (frames : list CapturedFrame)
    (st st1 st' : StitchEditor.Component) (p p' : StitchEditor.Pass)
    (es : list StitchEditor.LoadEvent) :
  Forall well_formed frames → whole_offsets frames → in_order es →
  StitchEditor.effect frames st = (st1, Some p) →
  StitchEditor.run es (st1, p) = Some (st', p') →
  StitchEditor.awaiting p' = [] →
  ∃ M img,
    Math_max (width <$> frames) = Some M
    ∧ StitchEditor.stitchedImage st' = Some img
    ∧ ∀ px py,
        0 ≤ px < M → 0 ≤ py < StitchEditor.totalHeight frames →
        (∀ k f, frames !! k = Some f →
           covers (placed M frames k f) px py = true →
           bpixel img px py = colour_of (placed M frames k f) px py)
        ∧ ((∀ k f, frames !! k = Some f →
              covers (placed M frames k f) px py = false) →
           bpixel img px py = black).
Proof.
  intros Hwf _ Hes Heff Hrun Hdone.
  assert (Hne : frames ≠ []).
  { intros ->. by cbn in Heff. }
  destruct (effect_nonempty frames st Hne) as (M & EM & _ & _ & Eeff).
  rewrite Eeff in Heff. injection Heff as <- <-.
  set (Ht := StitchEditor.totalHeight frames) in *.
  assert (Hstart : in_flight M M Ht frames 0 0
            ({| StitchEditor.canvas :=
                  {| cwidth := M; cheight := Ht;
                     ops := [FillRect black 0 0 M Ht] |};
                StitchEditor.stitchedImage := StitchEditor.stitchedImage st |},
             {| StitchEditor.maxWidth := M;
                StitchEditor.currentY := 0; StitchEditor.loading := frames;
                StitchEditor.yOffset := 0; StitchEditor.awaiting := frames |})).
  { unfold in_flight. cbn [fst snd StitchEditor.maxWidth StitchEditor.loading
         StitchEditor.currentY StitchEditor.awaiting StitchEditor.yOffset
         StitchEditor.canvas StitchEditor.stitchedImage].
    split; [lia|]. repeat (split; [done|]). split.
    - exists []. split; [done|]. split.
      + intros op Hin. by apply elem_of_nil in Hin.
      + intros k f Hk. lia.
    - intros Hn. by destruct frames. }
  destruct (in_flight_run M M Ht frames es Hes 0%nat 0%nat _ _ Hstart Hrun)
    as (a' & b' & Hb & _ & _ & _ & Hawait & _ & _ & Hpub).
  cbn [fst snd] in *.
  assert (b' = length frames) as ->.
  { rewrite Hdone in Hawait. symmetry in Hawait.
    apply (f_equal length) in Hawait. rewrite length_drop in Hawait.
    simpl in Hawait. lia. }
  destruct (Hpub eq_refl) as (l0 & Himg & Hall & Hdrawn).
  exists M, (toDataURL {| cwidth := M; cheight := Ht;
                          ops := FillRect black 0 0 M Ht :: l0 |}).
  split; [done|]. split; [done|]. intros px py Hpx Hpy.
  cbn [toDataURL bpixel cwidth cheight].
  replace ((0 <=? px) && (px <? M) && (0 <=? py) && (py <? Ht)) with true.
  2:{ symmetry. repeat (apply andb_true_iff; split);
        first [apply Z.leb_le | apply Z.ltb_lt]; lia. }
  unfold pixel_at. cbn [ops foldl]. unfold paint at 2 4.
  cbn [covers colour_of].
  replace ((0 <=? px) && (px <? 0 + M) && (0 <=? py) && (py <? 0 + Ht))
    with true.
  2:{ symmetry. repeat (apply andb_true_iff; split);
        first [apply Z.leb_le | apply Z.ltb_lt]; lia. }
  destruct (paint_placed M frames px py black l0 Hwf Hall) as [Hc Hn].
  split; [|exact Hn].
  intros k f Hk Hcov. apply (Hc k f Hk Hcov).
  apply Hdrawn; [|done]. by apply lookup_lt_Some in Hk.
Qed.

(** What [drawImages] does on its own.  For a non-empty collection whose
    images load, it issues, after the black fill, exactly one [drawImage]
    per frame, in collection order: the call number [k] draws the frame at
    index [k] at [x = (maxWidth - frame.width) / 2] and at [y] = the sum of
    the heights of the frames before index [k].  This is the canvas of the
    render in which the awaited loads of [drawImages] are the only ones
    that complete. *)
Lemma drawImages_places_frames_in_order (frames : list CapturedFrame)
    (st : StitchEditor.Component) :
  frames ≠ [] → decodable frames →
  ∃ M st1 p st2,
    Math_max (width <$> frames) = Some M
    ∧ StitchEditor.effect frames st = (st1, Some p)
    ∧ StitchEditor.drawImages M frames st1 = Some st2
    ∧ StitchEditor.render frames
        (replicate (length frames) StitchEditor.Onload2) st = Some st2
    ∧ length (ops (StitchEditor.canvas st2)) = S (length frames)
    ∧ (∀ k frame, frames !! k = Some frame →
         ops (StitchEditor.canvas st2) !! S k
         = Some (DrawImage (dataUrl frame) (StitchEditor.centre M frame)
                   (StitchEditor.totalHeight (take k frames)))
         ∧ (StitchEditor.centre M frame == inject_Z (M - width frame) / 2)%Q).
Proof.
  intros Hne Hdec.
  destruct (effect_nonempty frames st Hne) as (M & EM & _ & _ & Eeff).
  set (c0 := {| cwidth := M; cheight := StitchEditor.totalHeight frames;
                ops := [FillRect black 0 0 M (StitchEditor.totalHeight frames)] |}) in Eeff.
  destruct (drawImages_loop_spec M frames Hdec c0 0)
    as (c' & E & _ & _ & Hlen & _ & Hnew).
  destruct (run_drawImages frames Hdec Hne
              {| StitchEditor.canvas := c0;
                 StitchEditor.stitchedImage := StitchEditor.stitchedImage st |}
              M 0 frames 0) as (c'' & E' & Hrun).
  cbn [StitchEditor.canvas] in E'.
  assert (c'' = c') as -> by congruence.
  eexists M, _, _, _. split; [exact EM|]. split; [exact Eeff|].
  unfold StitchEditor.drawImages, StitchEditor.render.
  cbn [StitchEditor.canvas]. rewrite E, Eeff. fold c0. rewrite Hrun.
  split; [reflexivity|]. split; [reflexivity|]. cbn [StitchEditor.canvas].
  split; [rewrite Hlen; done|].
  intros k frame Hk. split; [|apply centre_exact].
  pose proof (Hnew k frame Hk) as Hop. rewrite Z.add_0_l in Hop. exact Hop.
Qed.

(** A [drawImage] at a whole offset paints the rectangle of the image. *)
Lemma covers_whole (img : Bitmap) (x dy px py : Z) :
  covers (DrawImage img (inject_Z x) dy) px py
  = (x <=? px) && (px <? x + bwidth img)
    && (dy <=? py) && (py <? dy + bheight img).
Proof.
  unfold covers.
  assert (H1 : Qle_bool (inject_Z x) (inject_Z px) = (x <=? px)).
  { unfold Qle_bool, inject_Z. cbn. by rewrite !Z.mul_1_r. }
  assert (H2 : Qle_bool (inject_Z x + inject_Z (bwidth img)) (inject_Z px)
               = (x + bwidth img <=? px)).
  { rewrite <- inject_Z_plus. unfold Qle_bool, inject_Z. cbn.
    by rewrite !Z.mul_1_r. }
  rewrite H1, H2. f_equal. f_equal. f_equal.
  destruct (Z.leb_spec (x + bwidth img) px), (Z.ltb_spec px (x + bwidth img));
    cbn; try done; lia.
Qed.

(** C1 on the code.  The collection of the scenario, A of 200 by 100
    followed by B of 300 by 150, is rendered from a component that has just
    been mounted.  The effect starts the loads of its first loop and those
    of [drawImages]; all four complete, in this order: the load of A that
    [drawImages] awaits, the load of B of the first loop, the load of A of
    the first loop, the load of B that [drawImages] awaits.  The first loop
    draws at the running offset it shares between its handlers, in the
    order the loads complete: B at (0, 0) and A at (50, 150).  The canvas
    then holds, after the fill, A at (50, 0), B at (0, 0), A at (50, 150)
    and B at (0, 100), and the composite that is published, of 300 by 250,
    shows B on every pixel: A is not at (50, 0), it is nowhere. *)
Theorem C1_out_of_order_loads_hide_frame :
  ∃ st' img,
    StitchEditor.render [frameA; frameB]
      [StitchEditor.Onload2; StitchEditor.Onload1 1;
       StitchEditor.Onload1 0; StitchEditor.Onload2] mounted = Some st'
    ∧ ops (StitchEditor.canvas st')
      = [FillRect black 0 0 300 250;
         DrawImage (dataUrl frameA) (inject_Z 50) 0;
         DrawImage (dataUrl frameB) (inject_Z 0) 0;
         DrawImage (dataUrl frameA) (inject_Z 50) 150;
         DrawImage (dataUrl frameB) (inject_Z 0) 100]
    ∧ StitchEditor.stitchedImage st' = Some img
    ∧ bwidth img = 300 ∧ bheight img = 250
    ∧ bpixel img 50 0 = blue
    ∧ ∀ px py,
        bpixel img px py
        = if (0 <=? px) && (px <? 300) && (0 <=? py) && (py <? 250)
          then blue else Transparent.
Proof.
  eexists _,
    (toDataURL
       {| cwidth := 300; cheight := 250;
          ops := [FillRect black 0 0 300 250;
                  DrawImage (dataUrl frameA) (inject_Z 50) 0;
                  DrawImage (dataUrl frameB) (inject_Z 0) 0;
                  DrawImage (dataUrl frameA) (inject_Z 50) 150;
                  DrawImage (dataUrl frameB) (inject_Z 0) 100] |}).
  split; [reflexivity|]. split; [reflexivity|]. split; [reflexivity|].
  split; [reflexivity|]. split; [reflexivity|].
  split; [vm_compute; reflexivity|].
  intros px py. cbn [bpixel toDataURL cwidth cheight].
  destruct ((0 <=? px) && (px <? 300) && (0 <=? py) && (py <? 250)) eqn:Hin;
    [|done].
  apply andb_prop in Hin as [Hin Hy2]. apply andb_prop in Hin as [Hin Hy1].
  apply andb_prop in Hin as [Hx1 Hx2].
  apply Z.leb_le in Hx1, Hy1. apply Z.ltb_lt in Hx2, Hy2.
  unfold pixel_at. cbn [ops foldl].
  unfold paint at 1. rewrite covers_whole. cbn [bwidth bheight dataUrl frameB solid].
  destruct (Z.ltb_spec py 100) as [Hlow|Hhigh].
  - replace ((0 <=? px) && (px <? 0 + 300) && (100 <=? py) && (py <? 100 + 150))
      with false by (symmetry; apply andb_false_intro1, andb_false_intro2;
                     apply Z.leb_gt; lia).
    unfold paint at 1. rewrite covers_whole.
    cbn [bwidth bheight dataUrl frameA solid].
    replace ((50 <=? px) && (px <? 50 + 200) && (150 <=? py) && (py <? 150 + 100))
      with false by (symmetry; apply andb_false_intro1, andb_false_intro2;
                     apply Z.leb_gt; lia).
    unfold paint at 1. rewrite covers_whole.
    cbn [bwidth bheight dataUrl frameB solid].
    replace ((0 <=? px) && (px <? 0 + 300) && (0 <=? py) && (py <? 0 + 150))
      with true; [done|].
    symmetry. repeat (apply andb_true_intro; split);
      first [apply Z.leb_le; lia | apply Z.ltb_lt; lia].
  - replace ((0 <=? px) && (px <? 0 + 300) && (100 <=? py) && (py <? 100 + 150))
      with true; [done|].
    symmetry. repeat (apply andb_true_intro; split);
      first [apply Z.leb_le; lia | apply Z.ltb_lt; lia].
Qed.
(** ** The gateway response *)

Lemma property_not_null (json : JSON) (key : string) :
  json ≠ JNull → ∃ v, geminiService.property json key = Some v.
Proof. destruct json; intros Hn; [done|..]; by eexists. Qed.

Lemma readResponse_parsed (parse : string → option JSON) (t : string)
    (json : JSON) :
  t ≠ EmptyString → parse t = Some json → json ≠ JNull →
  ∃ s d c x,
    geminiService.property json "summary" = Some s
    ∧ geminiService.property json "description" = Some d
    ∧ geminiService.property json "code" = Some c
    ∧ geminiService.property json "text" = Some x
    ∧ geminiService.readResponse parse (Some t)
      = {| text := x;
           summary := if geminiService.truthy s then s else d;
           code := c |}.
Proof.
  intros Ht Hp Hn.
  destruct (property_not_null json "summary" Hn) as [s Hs].
  destruct (property_not_null json "description" Hn) as [d Hd].
  destruct (property_not_null json "code" Hn) as [c Hc].
  destruct (property_not_null json "text" Hn) as [x Hx].
  exists s, d, c, x. repeat split; try done.
  unfold geminiService.readResponse.
  rewrite (proj2 (String.eqb_neq t EmptyString) Ht), Hp, Hs, Hd, Hc, Hx. done.
Qed.

Lemma readResponse_fallback (parse : string → option JSON) (t : string) :
  t ≠ EmptyString → parse t = None ∨ parse t = Some JNull →
  geminiService.readResponse parse (Some t)
  = {| text := None; summary := Some (JString t); code := None |}.
Proof.
  intros Ht Hp. unfold geminiService.readResponse.
  rewrite (proj2 (String.eqb_neq t EmptyString) Ht).
  by destruct Hp as [-> | ->].
Qed.

(** C9 does not hold as it is stated: this response parses, its
    [summary] field is present (the empty string), and the result does not
    take its summary from that field but from [description]. *)
Lemma C9_present_summary_not_taken :
  ∃ json v,
    JSON_parse empty_summary_text = Some json
    ∧ geminiService.property json "summary" = Some (Some v)
    ∧ summary (geminiService.readResponse JSON_parse (Some empty_summary_text))
      = Some (JString "d")
    ∧ summary (geminiService.readResponse JSON_parse (Some empty_summary_text))
      ≠ Some v.
Proof.
  eexists _, _. split; [vm_compute; reflexivity|].
  split; [vm_compute; reflexivity|].
  split; [vm_compute; reflexivity|].
  vm_compute. discriminate.
Qed.

(** C9, amended.  For a response whose text is not empty, whatever
    [JSON.parse] does on it: when the text does not parse, or parses to
    [null], the result is [{ summary: text }]; when it parses to any other
    value, the result takes [code] and [text] from the fields of these names
    and takes [summary] from the field [summary] when that is truthy, and
    from the field [description] otherwise, that is when [summary] is
    absent or holds a falsy value such as the empty string.  The text
    [hello] does not parse, and the service returns [{ summary: hello }]
    for it. *)
Theorem C9_summary_of_response (parse : string → option JSON) (t : string) :
  t ≠ EmptyString →
  (parse t = None ∨ parse t = Some JNull →
   geminiService.readResponse parse (Some t)
   = {| text := None; summary := Some (JString t); code := None |})
  ∧ (∀ json, parse t = Some json → json ≠ JNull →
     ∃ s d,
       geminiService.property json "summary" = Some s
       ∧ geminiService.property json "description" = Some d
       ∧ summary (geminiService.readResponse parse (Some t))
         = (if geminiService.truthy s then s else d)
       ∧ (geminiService.truthy s = true →
          summary (geminiService.readResponse parse (Some t)) = s)
       ∧ (s = None →
          summary (geminiService.readResponse parse (Some t)) = d))
  ∧ (JSON_parse "hello" = None
     ∧ ∀ base64Image,
         geminiService.analyzeScreenshot
           (λ _, geminiService.Resolved (Some "hello")) base64Image
         = geminiService.Returns
             {| text := None; summary := Some (JString "hello");
                code := None |}).
Proof.
  intros Ht. split; [by apply readResponse_fallback|]. split.
  - intros json Hp Hn.
    destruct (readResponse_parsed parse t json Ht Hp Hn)
      as (s & d & c & x & Hs & Hd & _ & _ & E).
    exists s, d. rewrite E. cbn [summary].
    repeat split; try done.
    + by intros ->.
    + by intros ->.
  - split; [vm_compute; reflexivity|]. intros base64Image.
    unfold geminiService.analyzeScreenshot. f_equal.
Qed.

Lemma C9_summary_of_response_witness :
  empty_summary_text ≠ EmptyString
  ∧ summary (geminiService.readResponse JSON_parse (Some empty_summary_text))
    = Some (JString "d").
Proof.
  assert (Ht : empty_summary_text ≠ EmptyString) by (vm_compute; discriminate).
  split; [exact Ht|].
  destruct (C9_summary_of_response JSON_parse empty_summary_text Ht)
    as (_ & Hparsed & _).
  destruct (Hparsed
              (JObject [("summary", JString EmptyString);
                        ("description", JString "d")]))
    as (s & d & Hs & Hd & E & _); [vm_compute; reflexivity|discriminate|].
  rewrite E. injection Hs as <-. injection Hd as <-. reflexivity.
Defined.

(** C10.  When the response has no text, [undefined] or the empty string,
    the result is [{ summary: No analysis generated. }], whatever
    [JSON.parse] does and whatever image was sent. *)
Theorem C10_no_text_default (parse : string → option JSON)
    (base64Image : string) :
  let none := {| text := None;
                 summary := Some (JString "No analysis generated.");
                 code := None |} in
  geminiService.readResponse parse None = none
  ∧ geminiService.readResponse parse (Some EmptyString) = none
  ∧ geminiService.analyzeScreenshot (λ _, geminiService.Resolved None)
      base64Image = geminiService.Returns none
  ∧ geminiService.analyzeScreenshot
      (λ _, geminiService.Resolved (Some EmptyString)) base64Image
    = geminiService.Returns none.
Proof. repeat split. Qed.

(** ** The capture session *)

Section Capture.
Context `{!Engine}.

(** C4 on the code.  A session is started, the stream is granted, and in
    the mode [SINGLE] the capture button is pressed once, whatever the video
    shows.  The frame is captured into the state of the component.  The
    callback handed to [setTimeout] is a closure of the render in which the
    button was pressed, where [frames] is still empty: when it fires it stops
    the stream and hands an empty collection to the shell, which goes on to
    the stitching view with no frame. *)
Theorem C4_single_capture_hands_off_no_frame (s : MediaStream)
    (video : Video) (r : Q) (t : Z) :
  let env := {| videoRef := Some video; random := r; now := t |} in
  ∃ sys1 sys2 inst st newFrame,
    run [StartCapture; StreamGranted s; CaptureAndEdit env] boot = Some sys1
    ∧ stage sys1 = Some (inst, st)
    ∧ CaptureStage.frames st = [newFrame]
    ∧ trace sys1 = []
    ∧ step TimeoutFires sys1 = Some sys2
    ∧ trace sys2 = [TrackStop s; OnCaptureFrames []]
    ∧ App.frames (app sys2) = []
    ∧ App.appState (app sys2) = STITCHING.
Proof. intros env. eexists _, _, _, _, _. repeat split. Qed.

(** The same from any state of a session: whatever frames the stage holds
    when the button of the mode [SINGLE] is pressed, the collection handed
    over when the timeout fires is the one from before the press. *)
Lemma single_capture_hands_off_frames_before_press (sys : System)
    (inst : nat) (self : CaptureStage.State) (env : Env) :
  stage sys = Some (inst, self) →
  App.appState (app sys) = CAPTURING →
  CaptureStage.mode self = SINGLE →
  is_some (CaptureStage.stream self) = true →
  timeouts sys = [] →
  ∃ sys1 sys2,
    step (CaptureAndEdit env) sys = Some sys1
    ∧ step TimeoutFires sys1 = Some sys2
    ∧ App.frames (app sys2) = CaptureStage.frames self
    ∧ App.appState (app sys2) = STITCHING.
Proof.
  intros Hstage Happ Hmode Hshown Htime.
  unfold step, handle. rewrite Hstage, Hmode, Hshown. cbn [fmap option_fmap option_map].
  eexists. eexists. split; [reflexivity|].
  unfold commit, react.
  assert (Hout : CaptureStage.outputs (CaptureStage.captureFrame self env) = []).
  { unfold CaptureStage.captureFrame.
    by destruct (videoRef env), (CaptureStage.stream self). }
  rewrite Hout. cbn [foldl app stage timeouts]. rewrite Happ, Hstage, Htime.
  rewrite Nat.eqb_refl.
  unfold same_deps, CaptureStage.captureFrame.
  destruct (videoRef env), (CaptureStage.stream self); cbn;
    rewrite bool_decide_eq_true_2, eqb_reflx by done; cbn;
    repeat split; unfold CaptureStage.stopStream; cbn;
    repeat case_match; done.
Qed.

(** ** Frame ids *)








Lemma stopStream_frames (self st : CaptureStage.State) :
  CaptureStage.frames (CaptureStage.updates (CaptureStage.stopStream self) st)
  = CaptureStage.frames st.
Proof. unfold CaptureStage.stopStream. simpl. by destruct (CaptureStage.stream self). Qed.

Lemma stopStream_outputs (self : CaptureStage.State) (fs : list CapturedFrame) :
  OnCaptureFrames fs ∉ CaptureStage.outputs (CaptureStage.stopStream self).
Proof.
  unfold CaptureStage.stopStream. simpl. intros Hin.
  apply elem_of_app in Hin as [Hin|Hin]; repeat case_match;
    repeat (apply elem_of_cons in Hin as [Hin|Hin]; [done|]);
    by apply elem_of_nil in Hin.
Qed.








Lemma timerEffect_frames (self st : CaptureStage.State) (h : Z) :
  CaptureStage.frames
    (CaptureStage.updates (CaptureStage.timerEffect self h).1 st)
  = CaptureStage.frames st.
Proof.
  unfold CaptureStage.timerEffect.
  by destruct (CaptureStage.mode self), (CaptureStage.isRecording self).
Qed.






End Capture.




(** * Further properties

    ** The collection of the shell: delete and move *)

Lemma Math_max_Permutation (xs ys : list Z) :
  xs ≡ₚ ys → Math_max xs = Math_max ys.
Proof.
  intros Hp. destruct xs as [|x xs'] eqn:Ex.
  - apply Permutation_nil_l in Hp. by subst.
  - rewrite <- Ex in *.
    assert (Hx : xs ≠ []) by (by rewrite Ex).
    assert (Hy : ys ≠ []).
    { intros ->. apply Permutation_nil_r in Hp. done. }
    destruct (Math_max_nonempty xs Hx) as (m & -> & Hin & Hle).
    destruct (Math_max_nonempty ys Hy) as (m' & -> & Hin' & Hle').
    f_equal. rewrite list.Forall_forall in Hle, Hle'.
    assert (m ≤ m') by (apply Hle'; by rewrite <- Hp).
    assert (m' ≤ m) by (apply Hle; by rewrite Hp).
    lia.
Qed.

Lemma totalHeight_Permutation (l k : list CapturedFrame) :
  l ≡ₚ k → StitchEditor.totalHeight l = StitchEditor.totalHeight k.
Proof.
  induction 1 as [|f l k _ IH|f g l|l k m _ IH1 _ IH2].
  - done.
  - by rewrite !totalHeight_cons, IH.
  - rewrite !totalHeight_cons. lia.
  - by rewrite IH1.
Qed.

Lemma effect_canvas_of_sizes (l k : list CapturedFrame)
    (st : StitchEditor.Component) :
  length l = length k →
  Math_max (width <$> l) = Math_max (width <$> k) →
  StitchEditor.totalHeight l = StitchEditor.totalHeight k →
  StitchEditor.canvas (StitchEditor.effect l st).1
  = StitchEditor.canvas (StitchEditor.effect k st).1.
Proof.
  intros Hlen HM HH. unfold StitchEditor.effect.
  destruct l as [|f l], k as [|g k]; try done.
  rewrite HM, HH. by destruct (Math_max (width <$> g :: k)).
Qed.

(** X1.  Moving a frame up or down only rearranges the collection: the
    result holds the same frames, each as often as before, so no frame is
    lost or doubled; and the stitching effect gives the canvas the same
    width, height and fill as before the move. *)
Theorem X1_reorder_keeps_frames_and_canvas (i : string)
    (direction : Direction) (l : list CapturedFrame)
    (st : StitchEditor.Component) :
  App.handleReorderFrame i direction l ≡ₚ l
  ∧ length (App.handleReorderFrame i direction l) = length l
  ∧ StitchEditor.canvas
      (StitchEditor.effect (App.handleReorderFrame i direction l) st).1
    = StitchEditor.canvas (StitchEditor.effect l st).1.
Proof.
  pose proof (reorder_Permutation i direction l) as Hp.
  split; [done|]. split; [by rewrite Hp|].
  apply effect_canvas_of_sizes.
  - by rewrite Hp.
  - apply Math_max_Permutation. by rewrite Hp.
  - by apply totalHeight_Permutation.
Qed.

(** A frame of a collection with pairwise distinct ids is the only one with
    its id. *)
Lemma NoDup_ids_split (l : list CapturedFrame) (k : nat) (f : CapturedFrame) :
  NoDup (id <$> l) → l !! k = Some f →
  l = take k l ++ f :: drop (S k) l
  ∧ Forall (λ h, id h ≠ id f) (take k l)
  ∧ Forall (λ h, id h ≠ id f) (drop (S k) l).
Proof.
  intros Hnd Hk.
  assert (El : l = take k l ++ f :: drop (S k) l)
    by (symmetry; by apply take_drop_middle).
  split; [exact El|].
  rewrite El, fmap_app, fmap_cons in Hnd.
  apply list.NoDup_app in Hnd as (_ & Hdisj & Hnd).
  apply list.NoDup_cons in Hnd as (Hnotin & _).
  split; apply list.Forall_forall; intros h Hh Heq.
  - apply (Hdisj (id h)); [apply list_elem_of_fmap; by exists h|].
    rewrite Heq. by left.
  - apply Hnotin. rewrite <- Heq. apply list_elem_of_fmap. by exists h.
Qed.

Lemma NoDup_ids_neighbours (l : list CapturedFrame) (j : nat)
    (g f : CapturedFrame) :
  NoDup (id <$> l) → l !! j = Some g → l !! S j = Some f →
  ∃ l1 l2, l = l1 ++ g :: f :: l2 ∧ length l1 = j
           ∧ id g ≠ id f
           ∧ Forall (λ h, id h ≠ id f) l1 ∧ Forall (λ h, id h ≠ id g) l1.
Proof.
  intros Hnd Hj Hk.
  destruct (neighbours_split l j g f Hj Hk) as (El & _).
  exists (take j l), (drop (S (S j)) l).
  assert (Hlen : length (take j l) = j).
  { apply length_take_le. apply lookup_lt_Some in Hj. lia. }
  split; [exact El|]. split; [exact Hlen|].
  rewrite El, fmap_app, !fmap_cons in Hnd.
  apply list.NoDup_app in Hnd as (_ & Hdisj & Hnd).
  apply list.NoDup_cons in Hnd as (Hnotin & _).
  split; [|split].
  - intros Heq. apply Hnotin. rewrite Heq. by left.
  - apply list.Forall_forall. intros h Hh Heq.
    apply (Hdisj (id h)); [apply list_elem_of_fmap; by exists h|].
    rewrite Heq. right. by left.
  - apply list.Forall_forall. intros h Hh Heq.
    apply (Hdisj (id h)); [apply list_elem_of_fmap; by exists h|].
    rewrite Heq. by left.
Qed.

(** X2.  In a collection with pairwise distinct ids, moving a frame up and
    then down again, or down and then up again, gives the collection back,
    whenever the arrow of the first move is enabled for the frame. *)
Theorem X2_reorder_round_trip (l : list CapturedFrame) (k : nat)
    (f : CapturedFrame) :
  NoDup (id <$> l) → l !! k = Some f →
  (upDisabled k = false →
   App.handleReorderFrame (id f) down (App.handleReorderFrame (id f) up l) = l)
  ∧ (downDisabled l k = false →
     App.handleReorderFrame (id f) up (App.handleReorderFrame (id f) down l) = l).
Proof.
  intros Hnd Hk. split.
  - unfold upDisabled. intros Hup. apply Z.eqb_neq in Hup.
    destruct k as [|j]; [lia|].
    destruct (l !! j) as [g|] eqn:Hj.
    2:{ apply lookup_ge_None in Hj. apply lookup_lt_Some in Hk. lia. }
    destruct (NoDup_ids_neighbours l j g f Hnd Hj Hk)
      as (l1 & l2 & -> & _ & Hgf & Hl1 & _).
    rewrite reorder_up_at by done. by rewrite reorder_down_at.
  - unfold downDisabled. intros Hdown. apply Z.eqb_neq in Hdown.
    destruct (l !! S k) as [g|] eqn:Hj.
    2:{ apply lookup_ge_None in Hj. apply lookup_lt_Some in Hk. lia. }
    destruct (NoDup_ids_neighbours l k f g Hnd Hk Hj)
      as (l1 & l2 & -> & _ & Hfg & _ & Hl1).
    rewrite reorder_down_at by done. by rewrite reorder_up_at.
Qed.

Lemma X2_reorder_round_trip_witness :
  NoDup (id <$> [frameA; frameB]) ∧ [frameA; frameB] !! 1%nat = Some frameB
  ∧ upDisabled 1 = false
  ∧ App.handleReorderFrame "b" down
      (App.handleReorderFrame "b" up [frameA; frameB]) = [frameA; frameB].
Proof.
  assert (Hnd : NoDup (id <$> [frameA; frameB])).
  { apply list.NoDup_cons. split; [|apply NoDup_singleton].
    intros Hin. apply list_elem_of_singleton in Hin. discriminate Hin. }
  split; [exact Hnd|]. split; [reflexivity|]. split; [reflexivity|].
  exact (proj1 (X2_reorder_round_trip [frameA; frameB] 1 frameB Hnd eq_refl)
           eq_refl).
Defined.

(** X5.  In a collection with pairwise distinct ids the arrow buttons are
    disabled exactly where a move would change nothing: moving the frame
    at index [k] up leaves the collection as it is exactly when [k] is 0,
    and moving it down exactly when [k] is the last index. *)
Theorem X5_arrow_disabled_iff_no_move (l : list CapturedFrame) (k : nat)
    (f : CapturedFrame) :
  NoDup (id <$> l) → l !! k = Some f →
  (App.handleReorderFrame (id f) up l = l ↔ upDisabled k = true)
  ∧ (App.handleReorderFrame (id f) down l = l ↔ downDisabled l k = true).
Proof.
  intros Hnd Hk. unfold upDisabled, downDisabled. split.
  - destruct k as [|j].
    + split; [done|intros _].
      destruct l as [|f' l']; [done|]. injection Hk as ->.
      by apply reorder_up_first.
    + split; [|intros H; apply Z.eqb_eq in H; lia]. intros Heq. exfalso.
      destruct (l !! j) as [g|] eqn:Hj.
      2:{ apply lookup_ge_None in Hj. apply lookup_lt_Some in Hk. lia. }
      destruct (NoDup_ids_neighbours l j g f Hnd Hj Hk)
        as (l1 & l2 & -> & _ & Hgf & Hl1 & _).
      rewrite reorder_up_at in Heq by done.
      apply app_inv_head in Heq. injection Heq as Heq _.
      apply Hgf. by rewrite Heq.
  - destruct (l !! S k) as [g|] eqn:Hj.
    + assert (Hlt : (S k < length l)%nat) by (by apply lookup_lt_Some in Hj).
      split; [|intros H; apply Z.eqb_eq in H; lia]. intros Heq. exfalso.
      destruct (NoDup_ids_neighbours l k f g Hnd Hk Hj)
        as (l1 & l2 & -> & _ & Hfg & _ & Hl1).
      rewrite reorder_down_at in Heq by done.
      apply app_inv_head in Heq. injection Heq as Heq _.
      apply Hfg. by rewrite Heq.
    + apply lookup_ge_None in Hj.
      assert (Hlt : (k < length l)%nat) by (by apply lookup_lt_Some in Hk).
      split; [intros _; apply Z.eqb_eq; lia|intros _].
      destruct (NoDup_ids_split l k f Hnd Hk) as (El & Hl1 & _).
      rewrite (drop_ge l (S k)) in El by lia. rewrite El.
      by apply reorder_down_last.
Qed.

Lemma X5_arrow_disabled_iff_no_move_witness :
  NoDup (id <$> [frameA; frameB]) ∧ [frameA; frameB] !! 0%nat = Some frameA
  ∧ App.handleReorderFrame "a" up [frameA; frameB] = [frameA; frameB].
Proof.
  assert (Hnd : NoDup (id <$> [frameA; frameB])).
  { apply list.NoDup_cons. split; [|apply NoDup_singleton].
    intros Hin. apply list_elem_of_singleton in Hin. discriminate Hin. }
  split; [exact Hnd|]. split; [reflexivity|].
  exact (proj2 (proj1 (X5_arrow_disabled_iff_no_move [frameA; frameB] 0 frameA
                         Hnd eq_refl)) eq_refl).
Defined.

Lemma delete_no_match (i : string) (l : list CapturedFrame) :
  Forall (λ h, id h ≠ i) (App.handleDeleteFrame i l).
Proof.
  apply list.Forall_forall. intros h Hh.
  unfold App.handleDeleteFrame in Hh.
  by apply list_elem_of_filter in Hh as [Hne _].
Qed.

(** X3.  After a frame id has been deleted no frame carries it: deleting
    it again, or moving it, changes nothing.  Deletions of two ids commute,
    and a deletion never makes the collection longer. *)
Theorem X3_delete_then_edit (i j : string) (direction : Direction)
    (l : list CapturedFrame) :
  Forall (λ h, id h ≠ i) (App.handleDeleteFrame i l)
  ∧ App.handleDeleteFrame i (App.handleDeleteFrame i l)
    = App.handleDeleteFrame i l
  ∧ App.handleReorderFrame i direction (App.handleDeleteFrame i l)
    = App.handleDeleteFrame i l
  ∧ App.handleDeleteFrame i (App.handleDeleteFrame j l)
    = App.handleDeleteFrame j (App.handleDeleteFrame i l)
  ∧ (length (App.handleDeleteFrame i l) ≤ length l)%nat.
Proof.
  pose proof (delete_no_match i l) as Hno.
  split; [done|]. split; [by apply delete_absent|].
  split; [by apply reorder_absent|]. split.
  - unfold App.handleDeleteFrame. clear Hno.
    induction l as [|f l IH]; [done|].
    rewrite (filter_cons (λ f, id f ≠ j) f l), (filter_cons (λ f, id f ≠ i) f l).
    repeat case_decide; rewrite ?filter_cons; repeat case_decide;
      try done; by rewrite IH.
  - apply length_filter.
Qed.

(** X4.  Deleting a frame never widens the composite: when frames remain,
    the canvas of the next render is at most as wide as before, and its
    width is the width of one of the remaining frames. *)
Theorem X4_delete_never_widens (i : string) (l : list CapturedFrame)
    (st : StitchEditor.Component) :
  App.handleDeleteFrame i l ≠ [] →
  cwidth (StitchEditor.canvas
            (StitchEditor.effect (App.handleDeleteFrame i l) st).1)
  ≤ cwidth (StitchEditor.canvas (StitchEditor.effect l st).1)
  ∧ ∃ f, f ∈ App.handleDeleteFrame i l
         ∧ cwidth (StitchEditor.canvas
                     (StitchEditor.effect (App.handleDeleteFrame i l) st).1)
           = width f.
Proof.
  intros Hne.
  assert (Hl : l ≠ []).
  { intros ->. by apply Hne. }
  destruct (effect_nonempty _ st Hne) as (M' & _ & Hin' & _ & ->).
  destruct (effect_nonempty l st Hl) as (M & _ & _ & Hle & ->).
  cbn [fst StitchEditor.canvas cwidth].
  apply list_elem_of_fmap in Hin' as (f & -> & Hf). split.
  - apply (proj1 (list.Forall_forall _ _) Hle).
    unfold App.handleDeleteFrame in Hf.
    by apply list_elem_of_filter in Hf as [_ Hf].
  - by exists f.
Qed.

Lemma X4_delete_never_widens_witness :
  App.handleDeleteFrame "b" [frameA; frameB] ≠ []
  ∧ cwidth (StitchEditor.canvas
              (StitchEditor.effect
                 (App.handleDeleteFrame "b" [frameA; frameB]) mounted).1)
    ≤ cwidth (StitchEditor.canvas
                (StitchEditor.effect [frameA; frameB] mounted).1).
Proof.
  assert (Hne : App.handleDeleteFrame "b" [frameA; frameB] ≠ [])
    by (vm_compute; discriminate).
  split; [exact Hne|].
  exact (proj1 (X4_delete_never_widens "b" [frameA; frameB] mounted Hne)).
Defined.

(** ** One pass of the stitching effect, under any order of the loads *)

(** What one load event does to [awaiting] and to [stitchedImage]. *)
Lemma step_publication (e : StitchEditor.LoadEvent)
    (st st' : StitchEditor.Component) (p p' : StitchEditor.Pass) :
  StitchEditor.step e (st, p) = Some (st', p') →
  (StitchEditor.awaiting p' = StitchEditor.awaiting p
   ∧ StitchEditor.stitchedImage st' = StitchEditor.stitchedImage st)
  ∨ (∃ f, StitchEditor.awaiting p = f :: StitchEditor.awaiting p'
          ∧ decodes (dataUrl f) = true
          ∧ (StitchEditor.awaiting p' ≠ [] →
             StitchEditor.stitchedImage st' = StitchEditor.stitchedImage st)).
Proof.
  unfold StitchEditor.step. destruct e as [k|].
  - destruct (StitchEditor.loading p !! k) as [f|]; [|done].
    destruct (decodes (dataUrl f)); [|done]. cbn [negb].
    intros [= <- <-]. by left.
  - destruct (StitchEditor.awaiting p) as [|f rest] eqn:Ha; [done|].
    destruct (decodes (dataUrl f)) eqn:Hf; [|done]. cbn [negb].
    intros [= <- <-]. right. exists f. cbn. split; [done|]. split; [done|].
    by destruct rest.
Qed.

(** Once [drawImages] has gone through the collection nothing is awaited
    any more, and [stitchedImage] stays as it is. *)
Lemma run_after_publication (es : list StitchEditor.LoadEvent) :
  ∀ st p st' p',
    StitchEditor.run es (st, p) = Some (st', p') →
    StitchEditor.awaiting p = [] →
    StitchEditor.awaiting p' = []
    ∧ StitchEditor.stitchedImage st' = StitchEditor.stitchedImage st.
Proof.
  induction es as [|e es IH]; intros st p st' p' Hrun Hnil.
  - by injection Hrun as <- <-.
  - cbn [StitchEditor.run] in Hrun.
    destruct (StitchEditor.step e (st, p)) as [[st1 p1]|] eqn:Hstep; [|done].
    destruct (step_publication e st st1 p p1 Hstep) as [[Ha Hs]|(f & Ha & _)].
    + rewrite <- Hs. apply (IH st1 p1 st' p' Hrun). by rewrite Ha.
    + by rewrite Hnil in Ha.
Qed.

(** Until then [stitchedImage] is what it was when the pass began. *)
Lemma run_before_publication (es : list StitchEditor.LoadEvent) :
  ∀ st p st' p',
    StitchEditor.run es (st, p) = Some (st', p') →
    StitchEditor.awaiting p' ≠ [] →
    StitchEditor.stitchedImage st' = StitchEditor.stitchedImage st.
Proof.
  induction es as [|e es IH]; intros st p st' p' Hrun Hleft.
  - by injection Hrun as <- <-.
  - cbn [StitchEditor.run] in Hrun.
    destruct (StitchEditor.step e (st, p)) as [[st1 p1]|] eqn:Hstep; [|done].
    rewrite (IH st1 p1 st' p' Hrun Hleft).
    destruct (step_publication e st st1 p p1 Hstep)
      as [[_ Hs]|(f & _ & _ & Hs)]; [done|].
    apply Hs. intros Hnil.
    by destruct (run_after_publication es st1 p1 st' p' Hrun Hnil).
Qed.

Lemma effect_keeps_stitchedImage (frames : list CapturedFrame)
    (st st1 : StitchEditor.Component) (p : StitchEditor.Pass) :
  StitchEditor.effect frames st = (st1, Some p) →
  StitchEditor.stitchedImage st1 = StitchEditor.stitchedImage st
  ∧ StitchEditor.awaiting p = frames.
Proof.
  unfold StitchEditor.effect. destruct frames as [|f l]; [done|].
  destruct (Math_max (width <$> f :: l)); [|done]. by intros [= <- <-].
Qed.



(** While a frame that does not decode is awaited, it stays awaited. *)
Lemma run_blocked (es : list StitchEditor.LoadEvent) :
  ∀ st p st' p',
    StitchEditor.run es (st, p) = Some (st', p') →
    Exists (λ f, decodes (dataUrl f) = false) (StitchEditor.awaiting p) →
    Exists (λ f, decodes (dataUrl f) = false) (StitchEditor.awaiting p').
Proof.
  induction es as [|e es IH]; intros st p st' p' Hrun Hbad.
  - by injection Hrun as <- <-.
  - cbn [StitchEditor.run] in Hrun.
    destruct (StitchEditor.step e (st, p)) as [[st1 p1]|] eqn:Hstep; [|done].
    apply (IH st1 p1 st' p' Hrun).
    destruct (step_publication e st st1 p p1 Hstep)
      as [[Ha _]|(f & Ha & Hf & _)]; [by rewrite Ha|].
    rewrite Ha in Hbad. apply Exists_cons in Hbad as [Hbad|Hbad]; [|done].
    congruence.
Qed.

(** X7.  One frame whose image does not load blocks the render: whatever
    loads complete, [drawImages] never reaches the end of the collection,
    no composite is published, and [stitchedImage] stays what it was before
    the effect ran. *)
Theorem X7_undecodable_frame_blocks_render (frames : list CapturedFrame)
    (st st1 st' : StitchEditor.Component) (p p' : StitchEditor.Pass)
    (es : list StitchEditor.LoadEvent) :
  ¬ decodable frames →
  StitchEditor.effect frames st = (st1, Some p) →
  StitchEditor.run es (st1, p) = Some (st', p') →
  StitchEditor.awaiting p' ≠ []
  ∧ StitchEditor.stitchedImage st' = StitchEditor.stitchedImage st
  ∧ StitchEditor.drawImages (StitchEditor.maxWidth p) frames st1 = None.
Proof.
  intros Hbad Heff Hrun.
  destruct (effect_keeps_stitchedImage _ _ _ _ Heff) as [Hs Ha].
  assert (Hex : Exists (λ f, decodes (dataUrl f) = false) frames).
  { unfold decodable in Hbad. apply not_Forall_Exists in Hbad; [|apply _].
    apply (list.Exists_impl _ _ _ Hbad). intros f Hf.
    by apply not_true_is_false. }
  assert (Hleft : StitchEditor.awaiting p' ≠ []).
  { pose proof (run_blocked es st1 p st' p' Hrun) as Hb.
    rewrite Ha in Hb. specialize (Hb Hex). intros Hnil.
    rewrite Hnil in Hb. by apply Exists_nil in Hb. }
  split; [done|]. split.
  - rewrite <- Hs. by apply (run_before_publication es st1 p st' p').
  - unfold StitchEditor.drawImages.
    assert (Hloop : ∀ c y, StitchEditor.drawImages_loop
                             (StitchEditor.maxWidth p) frames c y = None).
    { clear -Hex. induction Hex as [f l Hf|f l _ IH]; intros c y; simpl.
      - by rewrite Hf.
      - destruct (decodes (dataUrl f)); [apply IH|done]. }
    by rewrite Hloop.
Qed.

Lemma X7_undecodable_frame_blocks_render_witness :
  ¬ decodable [frameA; frameBlank]
  ∧ ∃ st1 p st' p',
      StitchEditor.effect [frameA; frameBlank] mounted = (st1, Some p)
      ∧ StitchEditor.run [StitchEditor.Onload2] (st1, p) = Some (st', p')
      ∧ StitchEditor.awaiting p' ≠ []
      ∧ StitchEditor.stitchedImage st' = StitchEditor.stitchedImage mounted.
Proof.
  assert (Hbad : ¬ decodable [frameA; frameBlank]).
  { intros Hdec. unfold decodable in Hdec.
    rewrite !list.Forall_cons in Hdec. destruct Hdec as (_ & Hdec & _).
    discriminate Hdec. }
  split; [exact Hbad|]. eexists _, _, _, _.
  split; [reflexivity|]. split; [reflexivity|].
  destruct (X7_undecodable_frame_blocks_render [frameA; frameBlank] mounted
              _ _ _ _ [StitchEditor.Onload2] Hbad eq_refl eq_refl)
    as (Hleft & Hsame & _).
  by split.
Defined.

(** ** Renders whose first-loop loads complete in collection order *)






(** ** The capture session: what the collections hold *)

Section CaptureSession.
Context `{!Engine}.

Lemma captureFrame_frameOf (self : CaptureStage.State) (env : Env) :
  CaptureStage.captureFrame self env
  = match videoRef env, CaptureStage.stream self with
    | Some video, Some _ =>
        {| CaptureStage.updates :=
             CaptureStage.setFrames (λ prev, prev ++ [frameOf video env]);
           CaptureStage.outputs := [] |}
    | _, _ => {| CaptureStage.updates := λ st, st;
                 CaptureStage.outputs := [] |}
    end.
Proof.
  unfold CaptureStage.captureFrame.
  by destruct (videoRef env), (CaptureStage.stream self).
Qed.

Section FramesInvariant.
Context (P : CapturedFrame → Prop).

Lemma Forall_kept (keep : CapturedFrame → Prop)
    `{∀ f, Decision (keep f)} (l : list CapturedFrame) :
  Forall P l → Forall P (filter keep l).
Proof.
  rewrite !list.Forall_forall. intros Hl f Hf.
  apply list_elem_of_filter in Hf as [_ Hf]. by apply Hl.
Qed.

Lemma deliver_all (outs : list Output) :
  (∀ fs, OnCaptureFrames fs ∈ outs → Forall P fs) →
  ∀ a, Forall P (App.frames a) →
       Forall P (App.frames (foldl (λ a o, deliver o a) a outs)).
Proof.
  induction outs as [|o outs IH]; intros Houts a Ha; [done|].
  simpl. apply IH.
  - intros fs Hfs. apply Houts. by right.
  - destruct o as [s|t|fs|]; simpl; try done. apply Houts. by left.
Qed.

Lemma react_all (inst : nat) (r : CaptureStage.Reaction) (sys : System) :
  (∀ st, Forall P (CaptureStage.frames st) →
         Forall P (CaptureStage.frames (CaptureStage.updates r st))) →
  (∀ fs, OnCaptureFrames fs ∈ CaptureStage.outputs r → Forall P fs) →
  all_frames P sys → all_frames P (react inst r sys).
Proof.
  intros Hupd Houts (Happ & Hstage & Htime). split; [|split]; simpl.
  - by apply deliver_all.
  - intros i st Hst. repeat case_match; simplify_eq.
    + by apply Hupd, (Hstage _ _ eq_refl).
    + by apply (Hstage _ _ eq_refl).
  - done.
Qed.

Lemma setApp_all (a : App.State) (sys : System) :
  Forall P (App.frames a) → all_frames P sys → all_frames P (setApp a sys).
Proof.
  intros Ha (_ & Hstage & Htime). split; [|split]; simpl; [done| |done].
  intros inst st Hst. destruct (App.appState a); try done.
  by apply (Hstage inst st).
Qed.

Lemma update_all (inst : nat)
    (f : CaptureStage.State → CaptureStage.State) (sys : System) :
  (∀ st, CaptureStage.frames (f st) = CaptureStage.frames st) →
  all_frames P sys →
  all_frames P
    (react inst {| CaptureStage.updates := f; CaptureStage.outputs := [] |} sys).
Proof.
  intros Hf. apply react_all.
  - intros st Hst. cbn [CaptureStage.updates]. by rewrite Hf.
  - intros fs Hfs. cbn [CaptureStage.outputs] in Hfs. by apply elem_of_nil in Hfs.
Qed.

Lemma captureFrame_all (self : CaptureStage.State) (env : Env) :
  (∀ video, videoRef env = Some video → P (frameOf video env)) →
  (∀ st, Forall P (CaptureStage.frames st) →
         Forall P (CaptureStage.frames
                     (CaptureStage.updates
                        (CaptureStage.captureFrame self env) st)))
  ∧ (∀ fs, OnCaptureFrames fs
           ∈ CaptureStage.outputs (CaptureStage.captureFrame self env) →
           Forall P fs).
Proof.
  intros HP. rewrite captureFrame_frameOf.
  destruct (videoRef env) as [video|], (CaptureStage.stream self) as [s|];
    cbn; (split; [|intros fs Hfs; by apply elem_of_nil in Hfs]);
    intros st Hst; try done.
  apply Forall_app. split; [done|]. constructor; [by apply HP|constructor].
Qed.

Lemma handleFinish_all (self : CaptureStage.State) :
  Forall P (CaptureStage.frames self) →
  (∀ st, Forall P (CaptureStage.frames st) →
         Forall P (CaptureStage.frames
                     (CaptureStage.updates
                        (CaptureStage.handleFinish self) st)))
  ∧ (∀ fs, OnCaptureFrames fs
           ∈ CaptureStage.outputs (CaptureStage.handleFinish self) →
           Forall P fs).
Proof.
  intros Hself. unfold CaptureStage.handleFinish. split.
  - intros st Hst. cbn [CaptureStage.updates]. by rewrite stopStream_frames.
  - intros fs Hfs. cbn [CaptureStage.outputs] in Hfs.
    apply elem_of_app in Hfs as [Hfs|Hfs].
    + by apply stopStream_outputs in Hfs.
    + apply list_elem_of_singleton in Hfs. by injection Hfs as ->.
Qed.

Lemma handleClose_all (self : CaptureStage.State) :
  (∀ st, Forall P (CaptureStage.frames st) →
         Forall P (CaptureStage.frames
                     (CaptureStage.updates
                        (CaptureStage.handleClose self) st)))
  ∧ (∀ fs, OnCaptureFrames fs
           ∈ CaptureStage.outputs (CaptureStage.handleClose self) →
           Forall P fs).
Proof.
  unfold CaptureStage.handleClose. split.
  - intros st Hst. cbn [CaptureStage.updates]. by rewrite stopStream_frames.
  - intros fs Hfs. cbn [CaptureStage.outputs] in Hfs.
    apply elem_of_app in Hfs as [Hfs|Hfs].
    + by apply stopStream_outputs in Hfs.
    + by apply list_elem_of_singleton in Hfs.
Qed.

Lemma handle_all (e : Event) (sys sys' : System) :
  (∀ env video, captured e = Some env → videoRef env = Some video →
     P (frameOf video env)) →
  all_frames P sys → handle e sys = Some sys' → all_frames P sys'.
Proof.
  intros HP Hok Hstep.
  pose proof Hok as (Happ & Hstage & Htime).
  assert (Hcap : ∀ env inst self,
            captured e = Some env →
            all_frames P (react inst (CaptureStage.captureFrame self env) sys)).
  { intros env inst self He.
    destruct (captureFrame_all self env) as [Hu Ho].
    - intros video Hv. by apply (HP env video).
    - by apply react_all. }
  unfold handle in Hstep.
  destruct e; repeat case_match; simplify_eq.
  all: try (apply update_all; [done|done]).
  all: try (apply setApp_all; [|done]; simpl;
            first [done
                  | by apply Forall_kept
                  | by rewrite reorder_Permutation]).
  - split; [|split]; simpl; [constructor| |done].
    intros inst st Hst. simplify_eq. constructor.
  - split; [|split]; simpl; [constructor| |done].
    intros inst st Hst. simplify_eq. constructor.
  - apply react_all; [done| |done].
    intros fs Hfs. by apply list_elem_of_singleton in Hfs.
  - destruct (Hcap env n s eq_refl) as (Ha & Hs & Ht).
    split; [exact Ha|]. split; [exact Hs|]. cbn [timeouts].
    apply Forall_app. split; [exact Ht|]. constructor; [|constructor].
    by apply (Hstage n s).
  - by apply Hcap.
  - by apply Hcap.
  - destruct (handleFinish_all s (Hstage n s eq_refl)) as [Hu Ho].
    by apply react_all.
  - destruct (handleFinish_all s (Hstage n s eq_refl)) as [Hu Ho].
    by apply react_all.
  - destruct (handleClose_all s) as [Hu Ho]. by apply react_all.
  - inversion Htime as [|? ? Hc Hrest]; subst.
    destruct (handleFinish_all _ Hc) as [Hu Ho].
    apply react_all; [done|done|]. by split; [|split].
Qed.

Lemma commit_all (before : option (nat * CaptureStage.State)) (sys : System) :
  all_frames P sys → all_frames P (commit before sys).
Proof.
  intros (Happ & Hstage & Htime). unfold commit.
  destruct (stage sys) as [[i st]|] eqn:Hst.
  - case_match; [by split; [|split]; [|rewrite Hst|]|].
    pose proof (timerEffect_frames st st (handles sys)) as Hf.
    destruct (CaptureStage.timerEffect st (handles sys)) as [r started].
    cbn [fst] in Hf.
    split; [|split]; cbn [app stage timeouts]; [done| |done].
    intros inst st' Hst'. simplify_eq. rewrite Hf. by apply (Hstage inst st).
  - by split; [|split].
Qed.

Lemma run_all (es : list Event) :
  ∀ sys sys',
    (∀ e env video, e ∈ es → captured e = Some env →
       videoRef env = Some video → P (frameOf video env)) →
    all_frames P sys → run es sys = Some sys' → all_frames P sys'.
Proof.
  induction es as [|e es IH]; intros sys sys' HP Hok Hrun.
  - by injection Hrun as <-.
  - cbn [run] in Hrun.
    destruct (step e sys) as [sys1|] eqn:Hstep; [|done].
    apply (IH sys1 sys'); [|  |done].
    + intros e' env video He'. apply HP. by right.
    + unfold step in Hstep.
      destruct (handle e sys) as [sys0|] eqn:Hh; [|done].
      injection Hstep as <-. apply commit_all.
      apply (handle_all e sys sys0); [|done|done].
      intros env video. apply HP. by left.
Qed.

End FramesInvariant.

Lemma all_frames_boot (P : CapturedFrame → Prop) : all_frames P boot.
Proof. split; [|split]; simpl; [constructor|done|constructor]. Qed.


Lemma handle_interval (e : Event) (sys sys' : System) :
  handle e sys = Some sys' → interval sys' = interval sys.
Proof.
  unfold handle. intros Hh.
  destruct e; repeat case_match; by simplify_eq.
Qed.

Lemma deliver_not_capturing (outs : list Output) (a : App.State) :
  App.appState (foldl (λ a o, deliver o a) a outs) = CAPTURING →
  App.appState a = CAPTURING
  ∧ Forall (λ o, match o with
                 | OnCaptureFrames _ | OnCancel => False
                 | _ => True
                 end) outs.
Proof.
  revert a. induction outs as [|o outs IH]; intros a Ha; [by split|].
  simpl in Ha. apply IH in Ha as [Ha Houts].
  destruct o; simpl in Ha; try done; by split; [|constructor].
Qed.

Lemma handle_mount (e : Event) (sys sys' : System) :
  consistent sys → handle e sys = Some sys' →
  match stage sys' with
  | None => App.appState (app sys') ≠ CAPTURING
  | Some _ => App.appState (app sys') = CAPTURING
  end.
Proof.
  unfold consistent, handle, react. intros Hc Hh.
  destruct e; repeat case_match; simplify_eq; cbn in *;
    repeat case_match; simplify_eq; cbn in *; try done; try tauto;
    try congruence.
Qed.

Lemma commit_consistent (before : option (nat * CaptureStage.State))
    (sys : System) :
  (∀ j st0, before = Some (j, st0) →
     is_some (interval sys) = true
     ↔ CaptureStage.mode st0 = LONG_TIMER
       ∧ CaptureStage.isRecording st0 = true) →
  match stage sys with
  | None => App.appState (app sys) ≠ CAPTURING
  | Some _ => App.appState (app sys) = CAPTURING
  end →
  consistent (commit before sys).
Proof.
  intros Hbefore Hmount. unfold commit, consistent.
  destruct (stage sys) as [[i st]|] eqn:Hst; [|by rewrite ?Hst].
  destruct before as [[j st0]|].
  - destruct (Nat.eqb i j && same_deps st0 st) eqn:Hsame.
    + rewrite Hst. split; [done|].
      apply andb_prop in Hsame as [_ Hdeps]. unfold same_deps in Hdeps.
      apply andb_prop in Hdeps as [Hm Hr].
      apply bool_decide_eq_true in Hm. apply Bool.eqb_prop in Hr.
      rewrite <- Hm, <- Hr. by apply (Hbefore j st0).
    + unfold CaptureStage.timerEffect.
      destruct (CaptureStage.mode st) eqn:Hm,
               (CaptureStage.isRecording st) eqn:Hr; cbn;
        rewrite ?Hm, ?Hr; (split; [done|]); split; try done;
        intros [? ?]; done.
  - unfold CaptureStage.timerEffect.
    destruct (CaptureStage.mode st) eqn:Hm,
             (CaptureStage.isRecording st) eqn:Hr; cbn;
      rewrite ?Hm, ?Hr; (split; [done|]); split; try done;
      intros [? ?]; done.
Qed.

Lemma step_consistent (e : Event) (sys sys' : System) :
  consistent sys → step e sys = Some sys' → consistent sys'.
Proof.
  intros Hc Hstep. unfold step in Hstep.
  destruct (handle e sys) as [sys0|] eqn:Hh; [|done].
  injection Hstep as <-. apply commit_consistent.
  - intros j st0 Hst. rewrite (handle_interval e sys sys0 Hh).
    unfold consistent in Hc. rewrite Hst in Hc. apply Hc.
  - by apply (handle_mount e sys).
Qed.

Lemma run_consistent (es : list Event) :
  ∀ sys sys', consistent sys → run es sys = Some sys' → consistent sys'.
Proof.
  induction es as [|e es IH]; intros sys sys' Hc Hrun.
  - by injection Hrun as <-.
  - cbn [run] in Hrun. destruct (step e sys) as [sys1|] eqn:Hstep; [|done].
    apply (IH sys1); [|done]. by apply (step_consistent e sys).
Qed.

Lemma consistent_boot : consistent boot.
Proof. by split. Qed.

Lemma step_clears_interval (e : Event) (sys sys' : System) (t : Z) :
  step e sys = Some sys' → interval sys = Some t →
  interval sys' = Some t
  ∨ ∃ before after,
      trace sys' = trace sys ++ before ++ ClearInterval t :: after.
Proof.
  intros Hstep Ht. unfold step in Hstep.
  destruct (handle e sys) as [sys0|] eqn:Hh; [|done].
  injection Hstep as <-.
  pose proof (handle_interval e sys sys0 Hh) as Hi. rewrite Ht in Hi.
  assert (Htr : ∃ outs, trace sys0 = trace sys ++ outs).
  { unfold handle in Hh.
    destruct e; repeat case_match; simplify_eq; cbn;
      first [by exists []; rewrite app_nil_r | by eexists]. }
  destruct Htr as [outs Htr].
  unfold commit. rewrite Hi.
  destruct (stage sys0) as [[i st]|].
  - case_match eqn:Hsame.
    + by left.
    + destruct (CaptureStage.timerEffect st (handles sys0)) as [r started].
      right. exists outs. eexists. cbn [trace]. rewrite Htr.
      by rewrite <- !app_assoc.
  - right. exists outs, []. cbn [trace]. rewrite Htr.
    by rewrite <- !app_assoc.
Qed.

(** X11.  The interval of the timer mode.  In every state the application
    reaches, an interval is live exactly while the stage is mounted, in the
    timer mode and recording: pausing, leaving the mode, finishing, closing
    and going back home all leave no interval behind.  And an interval that
    an event ends has been handed to [clearInterval] during that event. *)
Theorem X11_interval_live_iff_recording (es : list Event) (sys : System) :
  run es boot = Some sys →
  (is_some (interval sys) = true
   ↔ ∃ inst st, stage sys = Some (inst, st)
                ∧ CaptureStage.mode st = LONG_TIMER
                ∧ CaptureStage.isRecording st = true)
  ∧ ∀ e sys' t,
      interval sys = Some t → step e sys = Some sys' →
      interval sys' = Some t
      ∨ ∃ before after,
          trace sys' = trace sys ++ before ++ ClearInterval t :: after.
Proof.
  intros Hrun. split.
  - pose proof (run_consistent es boot sys consistent_boot Hrun) as Hc.
    unfold consistent in Hc. destruct (stage sys) as [[i st]|].
    + destruct Hc as [_ Hc]. rewrite Hc. split.
      * intros [Hm Hr]. by exists i, st.
      * intros (i' & st' & Heq & Hm & Hr). by simplify_eq.
    + destruct Hc as [_ ->]. split; [done|]. by intros (? & ? & ? & _).
  - intros e sys' t Ht Hstep. by apply (step_clears_interval e sys).
Qed.


Lemma react_grows (i inst : nat) (fs : list CapturedFrame)
    (r : CaptureStage.Reaction) (sys : System) :
  (∀ st, fs `prefix_of` CaptureStage.frames st →
         fs `prefix_of` CaptureStage.frames (CaptureStage.updates r st)) →
  session_grows i fs sys → session_grows i fs (react inst r sys).
Proof.
  intros Hupd [Hi Hst]. split; [done|]. cbn. intros j st Hj.
  repeat case_match; simplify_eq.
  - destruct (Hst _ _ eq_refl) as [? Hp]. split; [done|].
    intros ->. by apply Hupd, Hp.
  - by apply Hst.
Qed.

Lemma setApp_grows (i : nat) (fs : list CapturedFrame) (a : App.State)
    (sys : System) :
  session_grows i fs sys → session_grows i fs (setApp a sys).
Proof.
  intros [Hi Hst]. split; [done|]. cbn. intros j st Hj.
  destruct (App.appState a); try done; by apply Hst.
Qed.

Lemma captureFrame_grows (fs : list CapturedFrame)
    (self : CaptureStage.State) (env : Env) (st : CaptureStage.State) :
  fs `prefix_of` CaptureStage.frames st →
  fs `prefix_of` CaptureStage.frames
       (CaptureStage.updates (CaptureStage.captureFrame self env) st).
Proof.
  intros Hp. rewrite captureFrame_frameOf.
  destruct (videoRef env), (CaptureStage.stream self); cbn; try done.
  by apply prefix_app_r.
Qed.

Lemma handle_grows (i : nat) (fs : list CapturedFrame) (e : Event)
    (sys sys' : System) :
  session_grows i fs sys → handle e sys = Some sys' →
  session_grows i fs sys'.
Proof.
  intros Hg Hh. pose proof Hg as [Hi Hst]. unfold handle in Hh.
  assert (Hreact : ∀ n r,
            (r = CaptureStage.handleClose ∨ r = CaptureStage.handleFinish
             ∨ (∃ env, r = λ self, CaptureStage.captureFrame self env)) →
            ∀ self sys0, session_grows i fs sys0 →
                         session_grows i fs (react n (r self) sys0)).
  { intros n r Hr self sys0 Hg0. apply react_grows; [|done]. intros st Hp.
    destruct Hr as [->|[->|[env ->]]].
    - unfold CaptureStage.handleClose. cbn [CaptureStage.updates].
      by rewrite stopStream_frames.
    - unfold CaptureStage.handleFinish. cbn [CaptureStage.updates].
      by rewrite stopStream_frames.
    - by apply captureFrame_grows. }
  destruct e; repeat case_match; simplify_eq.
  all: try (by apply setApp_grows).
  all: try (by apply react_grows).
  all: try (apply (Hreact _ CaptureStage.handleClose); [by left|done]).
  all: try (apply (Hreact _ CaptureStage.handleFinish); [by right; left|];
            first [done | by split]).
  all: try (apply (Hreact _ (λ self, CaptureStage.captureFrame self env));
            [by right; right; exists env|done]).
  - split; cbn; [lia|]. intros j st Hj. simplify_eq. split; lia.
  - split; cbn; [lia|]. intros j st Hj. simplify_eq. split; lia.
Qed.

Lemma commit_grows (i : nat) (fs : list CapturedFrame)
    (before : option (nat * CaptureStage.State)) (sys : System) :
  session_grows i fs sys → session_grows i fs (commit before sys).
Proof.
  intros [Hi Hst]. unfold commit.
  destruct (stage sys) as [[j st]|] eqn:Hj.
  - case_match; [by split; [|rewrite Hj]|].
    pose proof (timerEffect_frames st st (handles sys)) as Hf.
    destruct (CaptureStage.timerEffect st (handles sys)) as [r started].
    cbn [fst] in Hf. split; [done|]. cbn. intros j' st' Heq. simplify_eq.
    rewrite Hf. by apply Hst.
  - by split.
Qed.

Lemma run_grows (i : nat) (fs : list CapturedFrame) (es : list Event) :
  ∀ sys sys', session_grows i fs sys → run es sys = Some sys' →
              session_grows i fs sys'.
Proof.
  induction es as [|e es IH]; intros sys sys' Hg Hrun.
  - by injection Hrun as <-.
  - cbn [run] in Hrun. destruct (step e sys) as [sys1|] eqn:Hstep; [|done].
    apply (IH sys1); [|done]. unfold step in Hstep.
    destruct (handle e sys) as [sys0|] eqn:Hh; [|done].
    injection Hstep as <-. apply commit_grows. by apply (handle_grows i fs e sys).
Qed.

Lemma run_fresh (es : list Event) :
  ∀ sys sys',
    (∀ j st, stage sys = Some (j, st) → (j < instances sys)%nat) →
    run es sys = Some sys' →
    ∀ j st, stage sys' = Some (j, st) → (j < instances sys')%nat.
Proof.
  induction es as [|e es IH]; intros sys sys' Hf Hrun.
  - by injection Hrun as <-.
  - cbn [run] in Hrun. destruct (step e sys) as [sys1|] eqn:Hstep; [|done].
    apply (IH sys1); [|done]. unfold step in Hstep.
    destruct (handle e sys) as [sys0|] eqn:Hh; [|done].
    injection Hstep as <-.
    assert (Hf0 : ∀ j st, stage sys0 = Some (j, st) → (j < instances sys0)%nat).
    { unfold handle in Hh.
      destruct e; repeat case_match; simplify_eq; cbn;
        intros j st Hj; repeat case_match; simplify_eq;
        first [lia | by eapply Hf]. }
    intros j st. unfold commit.
    destruct (stage sys0) as [[j0 st0]|] eqn:Hj0; [|done].
    case_match.
    + rewrite Hj0. intros ?. simplify_eq. by eapply Hf0.
    + destruct (CaptureStage.timerEffect st0 (handles sys0)) as [r started].
      cbn. intros ?. simplify_eq. by eapply Hf0.
Qed.

(** X12.  Within one capture session the captured frames only grow: from any
    state the application reaches, whatever events follow, as long as the
    same instance of the stage is mounted its collection still begins with
    the frames it held before.  No event removes or reorders a captured
    frame of a running session. *)
Theorem X12_session_frames_only_grow (es0 es : list Event) (sys sys' : System)
    (inst : nat) (st st' : CaptureStage.State) :
  run es0 boot = Some sys → run es sys = Some sys' →
  stage sys = Some (inst, st) → stage sys' = Some (inst, st') →
  CaptureStage.frames st `prefix_of` CaptureStage.frames st'.
Proof.
  intros Hrun0 Hrun Hst Hst'.
  assert (Hfresh : ∀ j s, stage sys = Some (j, s) → (j < instances sys)%nat).
  { by apply (run_fresh es0 boot). }
  destruct (run_grows inst (CaptureStage.frames st) es sys sys') as [_ Hg].
  - split; [by apply (Hfresh inst st)|]. intros j s Hj. split.
    + by apply (Hfresh j s).
    + intros ->. by simplify_eq.
  - done.
  - by apply (Hg inst st').
Qed.

Lemma run_app (es1 es2 : list Event) (sys : System) :
  run (es1 ++ es2) sys = run es1 sys ≫= run es2.
Proof.
  revert sys. induction es1 as [|e es1 IH]; intros sys; [done|].
  change ((e :: es1) ++ es2) with (e :: (es1 ++ es2)).
  cbn [run]. destruct (step e sys); [apply IH|done].
Qed.

Lemma setFrames_nil (st : CaptureStage.State) :
  CaptureStage.setFrames (λ prev, prev ++ []) st = st.
Proof.
  destruct st as [s m fr rec ti]. unfold CaptureStage.setFrames.
  cbn [CaptureStage.stream CaptureStage.mode CaptureStage.frames
       CaptureStage.isRecording CaptureStage.timerInterval].
  by rewrite app_nil_r.
Qed.

Lemma run_snaps (envs : list Env) :
  ∀ sys inst st s,
    stage sys = Some (inst, st) →
    App.appState (app sys) = CAPTURING →
    CaptureStage.mode st = LONG_MANUAL →
    CaptureStage.stream st = Some s →
    run (SnapFrame <$> envs) sys
    = Some {| app := app sys; instances := instances sys;
              stage := Some (inst,
                             CaptureStage.setFrames (λ prev, prev ++ made envs) st);
              handles := handles sys; interval := interval sys;
              timeouts := timeouts sys; trace := trace sys |}.
Proof.
  induction envs as [|env envs IH]; intros sys inst st s Hst Happ Hm Hs.
  - cbn [fmap list_fmap run]. f_equal.
    destruct sys as [a n stg h i t tr]. cbn in Hst. subst stg. cbn.
    do 3 f_equal. by rewrite setFrames_nil.
  - cbn [fmap list_fmap run].
    assert (Hstep : step (SnapFrame env) sys
              = Some {| app := app sys; instances := instances sys;
                        stage := Some (inst,
                                       CaptureStage.setFrames
                                         (λ prev, prev ++ made [env]) st);
                        handles := handles sys; interval := interval sys;
                        timeouts := timeouts sys; trace := trace sys |}).
    { unfold step, handle. rewrite Hst, Hm, Hs. cbn [is_some fmap option_fmap option_map].
      f_equal. unfold commit, react. rewrite captureFrame_frameOf, Hs.
      unfold made. cbn [omap list_omap].
      destruct (videoRef env) as [video|]; cbn [CaptureStage.outputs foldl stage fmap option_fmap option_map];
        rewrite Happ, Hst, Nat.eqb_refl; cbn [CaptureStage.updates];
        unfold same_deps; cbn [CaptureStage.mode CaptureStage.isRecording CaptureStage.setFrames];
        rewrite bool_decide_eq_true_2, eqb_reflx by done; cbn [andb];
        rewrite ?app_nil_r; try done.
      by rewrite setFrames_nil. }
    rewrite Hstep. erewrite IH; [|reflexivity|done|done|done].
    cbn. f_equal. f_equal. f_equal. f_equal. unfold CaptureStage.setFrames. cbn.
    f_equal. rewrite <- app_assoc. f_equal. unfold made. cbn.
    by destruct (videoRef env).
Qed.

(** X13.  A session in the manual mode hands over every frame it snapped, in
    the order of the snaps.  From any state the application reaches in
    which a capture can be started: after the stream is granted, frames are
    snapped and the session is finished, the stream is stopped, the shell
    holds exactly the snapped frames and shows the stitching view, and the
    stage is unmounted. *)
Theorem X13_manual_session_hands_over_all_frames (es0 : list Event)
    (sys : System) (s : MediaStream) (envs : list Env) :
  run es0 boot = Some sys →
  App.appState (app sys) = IDLE ∨ App.appState (app sys) = STITCHING →
  made envs ≠ [] →
  ∃ sys',
    run (manual_session s envs) sys = Some sys'
    ∧ App.frames (app sys') = made envs
    ∧ App.appState (app sys') = STITCHING
    ∧ stage sys' = None
    ∧ timeouts sys' = timeouts sys
    ∧ trace sys' = trace sys ++ [TrackStop s; OnCaptureFrames (made envs)].
Proof.
  intros Hrun0 Happ Hne.
  pose proof (run_consistent es0 boot sys consistent_boot Hrun0) as Hc.
  unfold consistent in Hc.
  destruct sys as [a n stg h i t tr]. cbn [app stage interval] in *.
  destruct stg as [[j st]|]; [destruct Hc as [Hc _]; destruct Happ; congruence|].
  destruct Hc as [_ ->].
  unfold manual_session. rewrite run_app.
  assert (Hstart :
    run [StartCapture; StreamGranted s; SetMode LONG_MANUAL]
      {| app := a; instances := n; stage := None; handles := h;
         interval := None; timeouts := t; trace := tr |}
    = Some {| app := App.handleStartCapture a; instances := S n;
              stage := Some (n, CaptureStage.setMode LONG_MANUAL
                                  (CaptureStage.setStream (Some s)
                                     CaptureStage.initial));
              handles := h; interval := None; timeouts := t; trace := tr |}).
  { cbn [run].
    assert (H1 : step StartCapture
              {| app := a; instances := n; stage := None; handles := h;
                 interval := None; timeouts := t; trace := tr |}
            = Some {| app := App.handleStartCapture a; instances := S n;
                      stage := Some (n, CaptureStage.initial);
                      handles := h; interval := None; timeouts := t;
                      trace := tr |}).
    { unfold step, handle. cbn [app].
      destruct Happ as [-> | ->]; cbn; by rewrite !app_nil_r. }
    rewrite H1.
    assert (H2 : step (StreamGranted s)
              {| app := App.handleStartCapture a; instances := S n;
                 stage := Some (n, CaptureStage.initial);
                 handles := h; interval := None; timeouts := t;
                 trace := tr |}
            = Some {| app := App.handleStartCapture a; instances := S n;
                      stage := Some (n, CaptureStage.setStream (Some s)
                                          CaptureStage.initial);
                      handles := h; interval := None; timeouts := t;
                      trace := tr |}).
    { unfold step, handle, commit, react, same_deps. cbn.
      rewrite Nat.eqb_refl. cbn. by rewrite !app_nil_r. }
    rewrite H2.
    unfold step, handle, commit, react, same_deps. cbn.
    rewrite Nat.eqb_refl. cbn. by rewrite !app_nil_r. }
  rewrite Hstart. cbn [mbind option_bind]. rewrite run_app.
  erewrite run_snaps; [|reflexivity|done|done|reflexivity].
  cbn [mbind option_bind run]. unfold step, handle.
  cbn [stage CaptureStage.mode CaptureStage.setFrames CaptureStage.setMode
       CaptureStage.stream CaptureStage.setStream CaptureStage.frames
       CaptureStage.initial is_some andb app_nil_l].
  change ([] ++ made envs) with (made envs).
  destruct (made envs) as [|f fs] eqn:Hmade; [done|].
  cbn. eexists. split; [reflexivity|]. cbn.
  by rewrite !app_nil_r.
Qed.

Lemma step_timeouts (e : Event) (sys sys' : System) :
  e ≠ TimeoutFires → step e sys = Some sys' →
  timeouts sys `prefix_of` timeouts sys'.
Proof.
  intros He Hstep. unfold step in Hstep.
  destruct (handle e sys) as [sys0|] eqn:Hh; [|done].
  injection Hstep as <-.
  assert (H0 : timeouts sys `prefix_of` timeouts sys0).
  { unfold handle in Hh.
    destruct e; repeat case_match; simplify_eq; cbn;
      first [done | by apply prefix_app_r]. }
  unfold commit. destruct (stage sys0) as [[i st]|]; [|done].
  case_match; [done|].
  by destruct (CaptureStage.timerEffect st (handles sys0)).
Qed.

Lemma run_timeouts (es : list Event) :
  ∀ sys sys', TimeoutFires ∉ es → run es sys = Some sys' →
              timeouts sys `prefix_of` timeouts sys'.
Proof.
  induction es as [|e es IH]; intros sys sys' Hno Hrun.
  - by injection Hrun as <-.
  - cbn [run] in Hrun. destruct (step e sys) as [sys1|] eqn:Hstep; [|done].
    apply not_elem_of_cons in Hno as [He Hno].
    trans (timeouts sys1).
    + by apply (step_timeouts e).
    + by apply IH.
Qed.

(** X14.  A hand-off that has been scheduled cannot be called off.  When the
    capture button of the mode [SINGLE] is pressed and no other timeout is
    pending, then whatever the user does before the timeout fires (closing
    the stage, going back home, starting a new session and capturing in
    it), the timeout fires, the shell takes the frames the stage held
    before the press, and it shows the stitching view with no stage
    mounted. *)
Theorem X14_scheduled_hand_off_always_lands (sys sys1 : System) (inst : nat)
    (self : CaptureStage.State) (env : Env) (es : list Event) :
  stage sys = Some (inst, self) → timeouts sys = [] →
  TimeoutFires ∉ es →
  run (CaptureAndEdit env :: es) sys = Some sys1 →
  ∃ sys2,
    step TimeoutFires sys1 = Some sys2
    ∧ App.frames (app sys2) = CaptureStage.frames self
    ∧ App.appState (app sys2) = STITCHING
    ∧ stage sys2 = None.
Proof.
  intros Hst Ht Hno Hrun. cbn [run] in Hrun.
  destruct (step (CaptureAndEdit env) sys) as [sys0|] eqn:Hstep; [|done].
  assert (H0 : timeouts sys0 = [(inst, self)]).
  { unfold step, handle in Hstep. rewrite Hst in Hstep.
    repeat case_match; simplify_eq. cbn in Hstep. simplify_eq.
    unfold commit. cbn [stage timeouts react].
    rewrite Ht. repeat case_match; done. }
  pose proof (run_timeouts es sys0 sys1 Hno Hrun) as [more Hmore].
  rewrite H0 in Hmore.
  unfold step, handle. rewrite Hmore. cbn [app fmap option_fmap option_map].
  eexists. split; [reflexivity|].
  unfold commit, react, CaptureStage.handleFinish.
  cbn [CaptureStage.outputs app stage].
  rewrite foldl_app. cbn [foldl deliver].
  unfold App.handleCaptureComplete. cbn. done.
Qed.

Lemma Qfloor_offset_0 (px : Z) : Qfloor (inject_Z px - 0) = px.
Proof.
  unfold Qfloor, Qminus, Qplus, Qopp, inject_Z. cbn.
  rewrite Z.mul_1_r, Z.add_0_r. apply Z.div_1_r.
Qed.

Lemma Qle_bool_inject (a b : Z) :
  Qle_bool (inject_Z a) (inject_Z b) = (a <=? b).
Proof.
  unfold Qle_bool, inject_Z. cbn. by rewrite !Z.mul_1_r.
Qed.

(** X9.  What a capture records.  With a video element mounted and a stream
    granted, [captureFrame] appends one frame to the collection and does
    nothing else.  The frame carries the size of the video, its image has
    exactly that size, and inside it every pixel is the pixel of the frame
    the video shows; the id comes from [generateId] and the timestamp from
    the clock. *)
Theorem X9_capture_records_the_video_frame (self st : CaptureStage.State)
    (env : Env) (video : Video) (s : MediaStream) :
  videoRef env = Some video → CaptureStage.stream self = Some s →
  ∃ f,
    CaptureStage.frames
      (CaptureStage.updates (CaptureStage.captureFrame self env) st)
    = CaptureStage.frames st ++ [f]
    ∧ CaptureStage.outputs (CaptureStage.captureFrame self env) = []
    ∧ id f = CaptureStage.generateId (random env)
    ∧ timestamp f = now env
    ∧ width f = videoWidth video ∧ height f = videoHeight video
    ∧ bwidth (dataUrl f) = width f ∧ bheight (dataUrl f) = height f
    ∧ ∀ px py,
        bpixel (dataUrl f) px py
        = if (0 <=? px) && (px <? videoWidth video)
             && (0 <=? py) && (py <? videoHeight video)
          then currentFrame video px py else Transparent.
Proof.
  intros Hv Hs. exists (frameOf video env).
  rewrite captureFrame_frameOf, Hv, Hs. repeat split.
  intros px py. cbn.
  destruct ((0 <=? px) && (px <? videoWidth video)
            && (0 <=? py) && (py <? videoHeight video)) eqn:Hin; [|done].
  unfold pixel_at, paint, covers. cbn [ops foldl app bwidth bheight].
  apply andb_prop in Hin as [Hin Hy2]. apply andb_prop in Hin as [Hin Hy1].
  apply andb_prop in Hin as [Hx1 Hx2].
  change 0%Q with (inject_Z 0) at 1. rewrite Qle_bool_inject, Hx1.
  assert (Hq : (0 + inject_Z (videoWidth video) == inject_Z (videoWidth video))%Q)
    by apply Qplus_0_l.
  assert (Hle : Qle_bool (0 + inject_Z (videoWidth video)) (inject_Z px) = false).
  { apply not_true_is_false. intros Hle. apply Qle_bool_iff in Hle.
    rewrite Hq in Hle. rewrite <- Zle_Qle in Hle. lia. }
  rewrite Hle. cbn [negb andb]. rewrite Z.add_0_l, Hy1, Hy2. cbn [andb].
  unfold colour_of. cbn [bpixel]. by rewrite Qfloor_offset_0, Z.sub_0_r.
Qed.

(** X10.  Where the frames of the shell come from.  In every state the
    application reaches, each frame of the collection the shell holds was
    made by a capture of the run: it is the frame [captureFrame] made of
    the video element in one of the capture events.  So the hand-off,
    delete and swap never invent or alter a frame, and the image of every
    frame has the size the frame declares. *)
Theorem X10_frames_come_from_captures (es : list Event) (sys : System)
    (f : CapturedFrame) :
  run es boot = Some sys →
  f ∈ App.frames (app sys)
  ∨ (∃ inst st, stage sys = Some (inst, st) ∧ f ∈ CaptureStage.frames st) →
  (∃ e env video,
     e ∈ es ∧ captured e = Some env ∧ videoRef env = Some video
     ∧ f = frameOf video env)
  ∧ bwidth (dataUrl f) = width f ∧ bheight (dataUrl f) = height f.
Proof.
  intros Hrun Hf.
  set (P := λ f, ∃ e env video,
                e ∈ es ∧ captured e = Some env ∧ videoRef env = Some video
                ∧ f = frameOf video env).
  assert (HP : P f).
  { destruct (run_all P es boot sys) as (Happ & Hstage & _);
      [|apply all_frames_boot|done|].
    - intros e env video He Hc Hv. by exists e, env, video.
    - destruct Hf as [Hf|(inst & st & Hst & Hf)].
      + rewrite list.Forall_forall in Happ. by apply Happ.
      + specialize (Hstage inst st Hst).
        rewrite list.Forall_forall in Hstage. by apply Hstage. }
  split; [exact HP|]. by destruct HP as (e & env & video & _ & _ & _ & ->).
Qed.

End CaptureSession.

(** *** The theorems of the capture session on sample sessions *)

Lemma X9_capture_records_the_video_frame_witness :
  videoRef (sample (1 # 2) 1) = Some screen
  ∧ CaptureStage.stream
      (CaptureStage.setStream (Some 0%nat) CaptureStage.initial)
    = Some 0%nat
  ∧ ∃ f,
      CaptureStage.frames
        (CaptureStage.updates
           (CaptureStage.captureFrame (H := exact_digits)
              (CaptureStage.setStream (Some 0%nat) CaptureStage.initial)
              (sample (1 # 2) 1))
           CaptureStage.initial)
      = [f]
      ∧ id f = "i" ∧ width f = 4 ∧ height f = 3
      ∧ bpixel (dataUrl f) 0 0 = red.
Proof.
  split; [reflexivity|]. split; [reflexivity|].
  destruct (X9_capture_records_the_video_frame (H := exact_digits)
              (CaptureStage.setStream (Some 0%nat) CaptureStage.initial)
              CaptureStage.initial (sample (1 # 2) 1) screen 0%nat
              eq_refl eq_refl)
    as (f & Hfs & _ & Hid & _ & Hw & Hh & _ & _ & Hpix).
  exists f. split; [exact Hfs|]. split; [by rewrite Hid|].
  split; [exact Hw|]. split; [exact Hh|]. by rewrite Hpix.
Defined.

Lemma X10_frames_come_from_captures_witness :
  ∃ sys f,
    run (H := exact_digits) (two_snaps (1 # 2) (1 # 4)) boot = Some sys
    ∧ f ∈ App.frames (app sys)
    ∧ bwidth (dataUrl f) = width f ∧ bheight (dataUrl f) = height f.
Proof.
  eexists _, (frameOf (H := exact_digits) screen (sample (1 # 2) 1)).
  split; [reflexivity|].
  assert (Hin : frameOf (H := exact_digits) screen (sample (1 # 2) 1)
                ∈ [frameOf (H := exact_digits) screen (sample (1 # 2) 1);
                   frameOf (H := exact_digits) screen (sample (1 # 4) 2)])
    by (by left).
  split; [exact Hin|].
  exact (proj2 (X10_frames_come_from_captures (H := exact_digits)
                  (two_snaps (1 # 2) (1 # 4)) _ _ eq_refl (or_introl Hin))).
Defined.

Lemma X11_interval_live_iff_recording_witness :
  ∃ sys,
    run (H := exact_digits) timer_recording boot = Some sys
    ∧ interval sys = Some 1
    ∧ ∃ inst st, stage sys = Some (inst, st)
                 ∧ CaptureStage.mode st = LONG_TIMER
                 ∧ CaptureStage.isRecording st = true.
Proof.
  eexists. split; [reflexivity|]. split; [reflexivity|].
  exact (proj1 (proj1 (X11_interval_live_iff_recording (H := exact_digits)
                         timer_recording _ eq_refl)) eq_refl).
Defined.

Lemma X12_session_frames_only_grow_witness :
  ∃ sys sys' inst st st',
    run (H := exact_digits)
      [StartCapture; StreamGranted 0%nat; SetMode LONG_MANUAL;
       SnapFrame (sample (1 # 2) 1)] boot = Some sys
    ∧ run (H := exact_digits) [SnapFrame (sample (1 # 4) 2)] sys = Some sys'
    ∧ stage sys = Some (inst, st) ∧ stage sys' = Some (inst, st')
    ∧ length (CaptureStage.frames st) = 1%nat
    ∧ length (CaptureStage.frames st') = 2%nat
    ∧ CaptureStage.frames st `prefix_of` CaptureStage.frames st'.
Proof.
  eexists _, _, _, _, _.
  split; [reflexivity|]. split; [reflexivity|]. split; [reflexivity|].
  split; [reflexivity|]. split; [reflexivity|]. split; [reflexivity|].
  exact (X12_session_frames_only_grow (H := exact_digits)
           [StartCapture; StreamGranted 0%nat; SetMode LONG_MANUAL;
            SnapFrame (sample (1 # 2) 1)]
           [SnapFrame (sample (1 # 4) 2)] _ _ _ _ _
           eq_refl eq_refl eq_refl eq_refl).
Defined.

Lemma X13_manual_session_hands_over_all_frames_witness :
  run (H := exact_digits) [] boot = Some boot
  ∧ (App.appState (app boot) = IDLE ∨ App.appState (app boot) = STITCHING)
  ∧ made (H := exact_digits) [sample (1 # 2) 1; sample (1 # 4) 2] ≠ []
  ∧ ∃ sys',
      run (H := exact_digits)
        (manual_session 0%nat [sample (1 # 2) 1; sample (1 # 4) 2]) boot
      = Some sys'
      ∧ id <$> App.frames (app sys') = ["i"; "9"]
      ∧ App.appState (app sys') = STITCHING.
Proof.
  assert (Hne : made (H := exact_digits) [sample (1 # 2) 1; sample (1 # 4) 2]
                ≠ []) by discriminate.
  split; [reflexivity|]. split; [by left|]. split; [exact Hne|].
  destruct (X13_manual_session_hands_over_all_frames (H := exact_digits)
              [] boot 0%nat [sample (1 # 2) 1; sample (1 # 4) 2]
              eq_refl (or_introl eq_refl) Hne)
    as (sys' & Hrun & Hframes & Hstate & _).
  exists sys'. split; [exact Hrun|]. split; [by rewrite Hframes|exact Hstate].
Defined.

Lemma X14_scheduled_hand_off_always_lands_witness :
  run (H := exact_digits) [StartCapture; StreamGranted 0%nat] boot
  = Some stream_granted
  ∧ stage stream_granted
    = Some (0%nat, CaptureStage.setStream (Some 0%nat) CaptureStage.initial)
  ∧ timeouts stream_granted = []
  ∧ (TimeoutFires ∉ [Close])
  ∧ ∃ sys1,
      run (H := exact_digits) [CaptureAndEdit (sample (1 # 2) 1); Close]
        stream_granted
      = Some sys1
      ∧ App.appState (app sys1) = IDLE
      ∧ ∃ sys2,
          step (H := exact_digits) TimeoutFires sys1 = Some sys2
          ∧ App.frames (app sys2) = []
          ∧ App.appState (app sys2) = STITCHING
          ∧ stage sys2 = None.
Proof.
  assert (Hno : TimeoutFires ∉ [Close]).
  { intros Hin. apply list_elem_of_singleton in Hin. discriminate Hin. }
  split; [reflexivity|]. split; [reflexivity|]. split; [reflexivity|].
  split; [exact Hno|]. eexists. split; [reflexivity|]. split; [reflexivity|].
  exact (X14_scheduled_hand_off_always_lands (H := exact_digits)
           stream_granted _ 0%nat
           (CaptureStage.setStream (Some 0%nat) CaptureStage.initial)
           (sample (1 # 2) 1) [Close] eq_refl eq_refl Hno eq_refl).
Defined.

(** ** The gateway service and [handleAnalyze] *)

Lemma until_comma_no_comma (s : string) :
  no_comma s = true → geminiService.until_comma s = (s, None).
Proof.
  induction s as [|c r IH]; [done|]. cbn [no_comma geminiService.until_comma].
  intros Hs. apply andb_prop in Hs as [Hc Hr].
  apply negb_true_iff in Hc. rewrite Hc, (IH Hr). done.
Qed.

Lemma until_comma_at (h r : string) :
  no_comma h = true →
  geminiService.until_comma (h +:+ "," +:+ r) = (h, Some r).
Proof.
  induction h as [|c h IH]; [done|]. intros Hs.
  cbn [no_comma] in Hs. apply andb_prop in Hs as [Hc Hh].
  apply negb_true_iff in Hc.
  change (String c h +:+ "," +:+ r) with (String c (h +:+ "," +:+ r)).
  cbn [geminiService.until_comma]. by rewrite Hc, (IH Hh).
Qed.

(** X15.  What the gateway is sent.  Of a data URL, whose header holds no
    comma, the service sends the payload: the text between the first
    comma and the second, or the end.  The header plays no part.  Of a
    string with no comma, such as bare base64 with no header, it sends
    nothing: the data is [undefined], whatever the string. *)
Theorem X15_gateway_is_sent_the_payload (header payload rest : string)
    (generateContent : option string → geminiService.GatewayResponse) :
  no_comma header = true → no_comma payload = true →
  geminiService.split_comma_1 (header +:+ "," +:+ payload) = Some payload
  ∧ geminiService.split_comma_1 (header +:+ "," +:+ payload +:+ "," +:+ rest)
    = Some payload
  ∧ geminiService.split_comma_1 payload = None
  ∧ geminiService.analyzeScreenshot generateContent
      (header +:+ "," +:+ payload)
    = geminiService.analyzeScreenshot generateContent ("," +:+ payload)
  ∧ geminiService.analyzeScreenshot generateContent payload
    = geminiService.analyzeScreenshot generateContent EmptyString.
Proof.
  intros Hh Hp.
  assert (E1 : geminiService.split_comma_1 (header +:+ "," +:+ payload)
               = Some payload).
  { unfold geminiService.split_comma_1.
    by rewrite (until_comma_at header payload Hh),
               (until_comma_no_comma payload Hp). }
  assert (E2 : geminiService.split_comma_1 payload = None).
  { unfold geminiService.split_comma_1.
    by rewrite (until_comma_no_comma payload Hp). }
  split; [exact E1|]. split; [|split; [exact E2|split]].
  - unfold geminiService.split_comma_1.
    by rewrite (until_comma_at header _ Hh), (until_comma_at payload rest Hp).
  - unfold geminiService.analyzeScreenshot. rewrite E1.
    change ("," +:+ payload) with (EmptyString +:+ "," +:+ payload).
    unfold geminiService.split_comma_1.
    by rewrite (until_comma_at EmptyString payload eq_refl),
               (until_comma_no_comma payload Hp).
  - unfold geminiService.analyzeScreenshot. by rewrite E2.
Qed.

Lemma X15_gateway_is_sent_the_payload_witness :
  no_comma "data:image/png;base64" = true ∧ no_comma "iVBORw0KGgo=" = true
  ∧ geminiService.split_comma_1 "data:image/png;base64,iVBORw0KGgo="
    = Some "iVBORw0KGgo="
  ∧ geminiService.split_comma_1 "iVBORw0KGgo=" = None.
Proof.
  split; [reflexivity|]. split; [reflexivity|].
  destruct (X15_gateway_is_sent_the_payload "data:image/png;base64"
              "iVBORw0KGgo=" EmptyString
              (λ _, geminiService.Resolved None) eq_refl eq_refl)
    as (E1 & _ & E2 & _).
  split; [exact E1|exact E2].
Defined.

(** X16.  When the result has no summary.  The summary of the result is
    [undefined] only in one case: the response text is not empty, it
    parses to a value other than [null], the [summary] of that value is
    absent or falsy, and it has no [description].  In every other case,
    a missing or empty text, a text that does not parse, the value [null],
    the result carries a summary.  And [code] and [text] are only ever
    copied from the members of a parsed object. *)
Theorem X16_summary_missing_only_when (parse : string → option JSON)
    (response : option string) :
  (summary (geminiService.readResponse parse response) = None
   ↔ ∃ t json s,
       response = Some t ∧ t ≠ EmptyString ∧ parse t = Some json
       ∧ geminiService.property json "summary" = Some s
       ∧ geminiService.truthy s = false
       ∧ geminiService.property json "description" = Some None)
  ∧ (code (geminiService.readResponse parse response) ≠ None
     ∨ text (geminiService.readResponse parse response) ≠ None →
     ∃ t members,
       response = Some t ∧ parse t = Some (JObject members)
       ∧ code (geminiService.readResponse parse response)
         = geminiService.member "code" members
       ∧ text (geminiService.readResponse parse response)
         = geminiService.member "text" members).
Proof.
  unfold geminiService.readResponse.
  destruct response as [t|].
  2:{ split; [split; [done|]|].
      - by intros (t & json & s & Ht & _).
      - cbn. intros [Hc|Hc]; done. }
  destruct (String.eqb t EmptyString) eqn:Hempty.
  { apply String.eqb_eq in Hempty. split; [split; [done|]|].
    - intros (t' & json & s & Ht & Hne & _). by simplify_eq.
    - cbn. intros [Hc|Hc]; done. }
  apply String.eqb_neq in Hempty.
  destruct (parse t) as [json|] eqn:Hparse.
  2:{ split; [split; [done|]|].
      - intros (t' & json & s & Ht & _ & Hp & _). simplify_eq.
      - cbn. intros [Hc|Hc]; done. }
  destruct json as [|b|n|str|items|members]; cbn.
  - split; [split; [done|]|].
    + intros (t' & json & s & Ht & _ & Hp & Hs & _). by simplify_eq.
    + intros [Hc|Hc]; done.
  - split; [split|].
    + intros _. by exists t, (JBool b), None.
    + done.
    + intros [Hc|Hc]; done.
  - split; [split|].
    + intros _. by exists t, (JNumber n), None.
    + done.
    + intros [Hc|Hc]; done.
  - split; [split|].
    + intros _. by exists t, (JString str), None.
    + done.
    + intros [Hc|Hc]; done.
  - split; [split|].
    + intros _. by exists t, (JArray items), None.
    + done.
    + intros [Hc|Hc]; done.
  - split; [split|].
    + destruct (geminiService.truthy (geminiService.member "summary" members))
        eqn:Htruthy.
      * intros Hs. rewrite Hs in Htruthy. done.
      * intros Hd. exists t, (JObject members), (geminiService.member "summary" members).
        cbn. by rewrite Hd.
    + intros (t' & json & s & Ht & _ & Hp & Hs & Hfalsy & Hd). simplify_eq.
      cbn in Hs, Hd. simplify_eq. by rewrite Hfalsy.
    + intros _. by exists t, members.
Qed.

(** X17.  [handleAnalyze] from end to end.  Whatever the gateway does, the
    handler ends with [isAnalyzing] false and leaves the frames and the
    view of the shell alone.  It raises the alert exactly when the gateway
    rejects, and then the analysis stays [null]; a response the service
    cannot read raises no alert: the analysis is then the result of
    reading the response text, in which the raw text is the summary.  The
    settling part does the same in whatever state it finds the shell. *)
Theorem X17_analysis_alerts_only_on_rejection
    (generateContent : option string → geminiService.GatewayResponse)
    (imageDataUrl : string) (st found : App.State) :
  let sent := geminiService.split_comma_1 imageDataUrl in
  let done := handleAnalyze generateContent imageDataUrl st in
  let settled :=
    handleAnalyze_settle
      (geminiService.analyzeScreenshot generateContent imageDataUrl) found in
  App.isAnalyzing done.1 = false
  ∧ App.frames done.1 = App.frames st
  ∧ App.appState done.1 = App.appState st
  ∧ (done.2 ≠ [] ↔ ∃ error, generateContent sent = geminiService.Rejected error)
  ∧ (done.2 ≠ [] → App.analysis done.1 = None)
  ∧ (∀ response,
       generateContent sent = geminiService.Resolved response →
       done.2 = []
       ∧ App.analysis done.1
         = Some (geminiService.readResponse JSON_parse response)
       ∧ (∀ t, response = Some t → t ≠ EmptyString → JSON_parse t = None →
          App.analysis done.1
          = Some {| text := None; summary := Some (JString t);
                    code := None |}))
  ∧ App.isAnalyzing settled.1 = false
  ∧ App.frames settled.1 = App.frames found
  ∧ App.appState settled.1 = App.appState found
  ∧ settled.2 = done.2.
Proof.
  intros sent done settled. subst sent done settled.
  unfold handleAnalyze, geminiService.analyzeScreenshot.
  destruct (generateContent (geminiService.split_comma_1 imageDataUrl))
    as [error|response]; cbn -[JSON_parse geminiService.readResponse].
  - split_and!; try done.
    split; [intros _; by exists error|done].
  - split_and!; try done.
    + split; [done|]. by intros [error Herr].
    + intros response' [= <-]. split_and!; try done.
      intros t -> Hne Hparse. unfold geminiService.readResponse.
      apply String.eqb_neq in Hne. by rewrite Hne, Hparse.
Qed.
